(** * Chess_Mania: the rules engine of chessmaniapygame.py

    A shallow embedding of the [Piece] and [Board] classes (move
    generation, [make_move], check detection, legality filtering, terminal
    states), of [ChessGame] (clicks, drags, end of game) and of the event
    dispatch of [main], with the properties the specification states about
    them and further properties of the code.

    Integers are Python integers ([Z]); the grid is a list of rows, each a
    list of optional pieces, subscripted as Python subscripts lists
    (negative subscripts count from the end, anything else out of range
    raises [IndexError]).  [make_move] mutates the board it is called on and
    can raise half-way, so it is written in a state-and-exception monad. *)

From Stdlib Require Import ZArith Lia Bool List.
From stdpp Require Import base tactics option list strings.

Local Open Scope Z_scope.

(** ** Python lists and exceptions *)

Module Py.

Inductive exn : Type := IndexError | AttributeError.

Inductive result (A : Type) : Type :=
| Ok (a : A)
| Raise (e : exn).
Global Arguments Ok {A} a.
Global Arguments Raise {A} e.

(** The position a subscript [i] denotes in a list of length [len]. *)
Definition norm_index (len : nat) (i : Z) : option nat :=
  if (0 <=? i) && (i <? Z.of_nat len) then Some (Z.to_nat i)
  else if (i <? 0) && (- Z.of_nat len <=? i) then Some (Z.to_nat (Z.of_nat len + i))
  else None.

(** [l[i]] *)
Definition getitem {A} (l : list A) (i : Z) : result A :=
  match norm_index (length l) i with
  | Some n => match l !! n with Some x => Ok x | None => Raise IndexError end
  | None => Raise IndexError
  end.

(** [l[i] = x] *)
Definition setitem {A} (l : list A) (i : Z) (x : A) : result (list A) :=
  match norm_index (length l) i with
  | Some n => Ok (<[n:=x]> l)
  | None => Raise IndexError
  end.

(** [range(lo, hi)] *)
Definition range (lo hi : Z) : list Z := seqZ lo (hi - lo).

End Py.

Import Py.

(** ** State and exceptions *)

Definition M (S A : Type) : Type := S → result A * S.

Section StateExn.
Context {S : Type}.

Definition ret {A} (a : A) : M S A := λ s, (Ok a, s).

Definition raise {A} (e : exn) : M S A := λ s, (Raise e, s).

Definition bind {A B} (m : M S A) (k : A → M S B) : M S B :=
  λ s, match m s with
       | (Ok a, s') => k a s'
       | (Raise e, s') => (Raise e, s')
       end.

Definition lift {A} (r : result A) : M S A := λ s, (r, s).

Definition gets {A} (f : S → A) : M S A := λ s, (Ok (f s), s).

Definition modify (f : S → S) : M S unit := λ s, (Ok tt, f s).

(** [if c: body] *)
Definition when (c : bool) (body : M S unit) : M S unit :=
  if c then body else ret tt.

(** [for x in xs: body(x)] *)
Fixpoint for_each {A} (xs : list A) (body : A → M S unit) : M S unit :=
  match xs with
  | [] => ret tt
  | x :: rest => bind (body x) (λ _, for_each rest body)
  end.
End StateExn.

Declare Scope py_scope.
Delimit Scope py_scope with py.
Notation "x <- m ;; k" := (bind m (λ x, k))
  (at level 100, m at next level, k at level 200, right associativity) : py_scope.
Notation "m ;; k" := (bind m (λ _, k))
  (at level 100, k at level 200, right associativity) : py_scope.

(** ** Data model *)

Inductive PieceType : Type := PAWN | ROOK | KNIGHT | BISHOP | QUEEN | KING.

Inductive Color : Type := WHITE | BLACK.

Record Piece : Type := mkPiece { color : Color; type : PieceType }.

Definition Square : Type := (Z * Z)%type.
Definition Move : Type := (Square * Square)%type.

Global Instance PieceType_eq_dec : EqDecision PieceType.
Proof. solve_decision. Defined.
Global Instance Color_eq_dec : EqDecision Color.
Proof. solve_decision. Defined.
Global Instance Piece_eq_dec : EqDecision Piece.
Proof. solve_decision. Defined.

Definition ROWS : Z := 8.
Definition COLS : Z := 8.

Definition other (c : Color) : Color :=
  match c with WHITE => BLACK | BLACK => WHITE end.

Definition is_pawn (p : Piece) : bool := bool_decide (type p = PAWN).

Definition square_eqb (a b : Square) : bool :=
  (a.1 =? b.1) && (a.2 =? b.2).

(** [sq == target] where [target] is a square or [None] *)
Definition is_target (sq : Square) (target : option Square) : bool :=
  match target with
  | Some t => square_eqb sq t
  | None => false
  end.

(** The attributes of a [Board] object, with the grid by value. *)
Record Board : Type := mkBoard {
  board : list (list (option Piece));
  en_passant_target : option Square;
  current_player : Color;
  move_history : list Move
}.

(** What [make_move] and [set_initial_position] do to the object they are
    called on: subscript [self.board], read and assign attributes. *)
Class BoardOps (S : Type) : Type := {
  board_getitem : Z → Z → M S (option Piece);
  board_setitem : Z → Z → option Piece → M S unit;
  get_en_passant_target : M S (option Square);
  set_en_passant_target : option Square → M S unit;
  get_current_player : M S Color;
  set_current_player : Color → M S unit;
  move_history_append : Move → M S unit
}.

Section Methods.
Context {S : Type} {ops : BoardOps S}.
Local Open Scope py_scope.

Definition piece_order : list PieceType :=
  [ROOK; KNIGHT; BISHOP; QUEEN; KING; BISHOP; KNIGHT; ROOK].

Definition set_initial_position : M S unit :=
  for_each (range 0 COLS) (λ col,
    kind <- lift (getitem piece_order col) ;;
    board_setitem 0 col (Some (mkPiece BLACK kind)) ;;
    board_setitem 1 col (Some (mkPiece BLACK PAWN)) ;;
    board_setitem 6 col (Some (mkPiece WHITE PAWN)) ;;
    board_setitem 7 col (Some (mkPiece WHITE kind))).

Definition make_move (start end_ : Square) : M S unit :=
  let '(start_row, start_col) := start in
  let '(end_row, end_col) := end_ in
  cell <- board_getitem start_row start_col ;;
  (* [piece.type] on [None] raises *)
  piece <- match cell with
           | Some p => ret p
           | None => raise AttributeError
           end ;;
  target <- get_en_passant_target ;;
  when (is_pawn piece && is_target (end_row, end_col) target)
       (board_setitem start_row end_col None) ;;
  board_setitem end_row end_col (Some piece) ;;
  board_setitem start_row start_col None ;;
  when (is_pawn piece && ((end_row =? 0) || (end_row =? 7)))
       (board_setitem end_row end_col (Some (mkPiece (color piece) QUEEN))) ;;
  set_en_passant_target None ;;
  when (is_pawn piece && (Z.abs (start_row - end_row) =? 2))
       (set_en_passant_target
          (Some (end_row + (start_row - end_row) `div` 2, end_col))) ;;
  player <- get_current_player ;;
  set_current_player (match player with WHITE => BLACK | BLACK => WHITE end) ;;
  move_history_append (start, end_).
End Methods.

(** ** The board by value *)

Definition set_board (g : list (list (option Piece))) (b : Board) : Board :=
  mkBoard g (en_passant_target b) (current_player b) (move_history b).

Definition Board_getitem (row col : Z) : M Board (option Piece) :=
  (r <- gets (λ b, getitem (board b) row) ;;
   r <- lift r ;;
   lift (getitem r col))%py.

Definition Board_setitem (row col : Z) (v : option Piece) : M Board unit :=
  (r <- gets (λ b, getitem (board b) row) ;;
   r <- lift r ;;
   r' <- lift (setitem r col v) ;;
   g <- gets (λ b, setitem (board b) row r') ;;
   g <- lift g ;;
   modify (set_board g))%py.

Global Instance Board_ops : BoardOps Board := {|
  board_getitem := Board_getitem;
  board_setitem := Board_setitem;
  get_en_passant_target := gets en_passant_target;
  set_en_passant_target t :=
    modify (λ b, mkBoard (board b) t (current_player b) (move_history b));
  get_current_player := gets current_player;
  set_current_player c :=
    modify (λ b, mkBoard (board b) (en_passant_target b) c (move_history b));
  move_history_append m :=
    modify (λ b, mkBoard (board b) (en_passant_target b) (current_player b)
                         (move_history b ++ [m]))
|}.

(** [Board()]: [reset] on a fresh object. *)
Definition blank : Board :=
  mkBoard (replicate (Z.to_nat ROWS) (replicate (Z.to_nat COLS) None)) None WHITE [].

Definition reset : Board := (set_initial_position blank).2.

(** ** Queries *)

Definition is_valid_position (row col : Z) : bool :=
  (0 <=? row) && (row <? ROWS) && (0 <=? col) && (col <? COLS).

(** The subscript is guarded by [is_valid_position]; on an 8x8 grid it is
    defined (see [get_piece_getitem]). *)
Definition get_piece (b : Board) (row col : Z) : option Piece :=
  if is_valid_position row col then
    match board b !! Z.to_nat row with
    | Some r => match r !! Z.to_nat col with
                | Some cell => cell
                | None => None
                end
    | None => None
    end
  else None.

Definition is_enemy (piece1 piece2 : option Piece) : bool :=
  match piece1, piece2 with
  | Some p1, Some p2 => negb (bool_decide (color p1 = color p2))
  | _, _ => false
  end.

Definition is_none {A} (o : option A) : bool :=
  match o with None => true | Some _ => false end.

(** ** Move generation *)

Definition get_pawn_moves (b : Board) (row col : Z) : list Square :=
  match get_piece b row col with
  | None => []
  | Some piece =>
      let direction := match color piece with WHITE => -1 | BLACK => 1 end in
      let start_row := match color piece with WHITE => 6 | BLACK => 1 end in
      let forward :=
        if is_none (get_piece b (row + direction) col) then
          (row + direction, col) ::
          (if (row =? start_row) && is_none (get_piece b (row + 2 * direction) col)
           then [(row + 2 * direction, col)] else [])
        else [] in
      let captures :=
        flat_map (λ dcol,
          if is_valid_position (row + direction) (col + dcol) then
            let target := get_piece b (row + direction) (col + dcol) in
            if is_enemy (Some piece) target
               || is_target (row + direction, col + dcol) (en_passant_target b)
            then [(row + direction, col + dcol)] else []
          else []) [-1; 1] in
      forward ++ captures
  end.

(** The inner loop of the sliding pieces: [for i in steps] with its three
    ways out. *)
Fixpoint slide (b : Board) (piece : Piece) (row col dr dc : Z)
    (steps : list Z) : list Square :=
  match steps with
  | [] => []
  | i :: rest =>
      let new_row := row + i * dr in
      let new_col := col + i * dc in
      if negb (is_valid_position new_row new_col) then []
      else
        let target := get_piece b new_row new_col in
        if is_none target then (new_row, new_col) :: slide b piece row col dr dc rest
        else if is_enemy (Some piece) target then [(new_row, new_col)]
        else []
  end.

Definition rook_directions : list (Z * Z) := [(-1, 0); (1, 0); (0, -1); (0, 1)].
Definition bishop_directions : list (Z * Z) := [(-1, -1); (-1, 1); (1, -1); (1, 1)].

Definition get_rook_moves (b : Board) (row col : Z) : list Square :=
  match get_piece b row col with
  | None => []
  | Some piece =>
      flat_map (λ '(dr, dc), slide b piece row col dr dc (range 1 8)) rook_directions
  end.

Definition get_bishop_moves (b : Board) (row col : Z) : list Square :=
  match get_piece b row col with
  | None => []
  | Some piece =>
      flat_map (λ '(dr, dc), slide b piece row col dr dc (range 1 8)) bishop_directions
  end.

Definition get_queen_moves (b : Board) (row col : Z) : list Square :=
  get_rook_moves b row col ++ get_bishop_moves b row col.

(** The loop shared by the knight and the king. *)
Definition step_moves (b : Board) (piece : Piece) (row col : Z)
    (offsets : list (Z * Z)) : list Square :=
  flat_map (λ '(dr, dc),
    let new_row := row + dr in
    let new_col := col + dc in
    if is_valid_position new_row new_col then
      let target := get_piece b new_row new_col in
      if is_none target || is_enemy (Some piece) target
      then [(new_row, new_col)] else []
    else []) offsets.

Definition knight_moves : list (Z * Z) :=
  [(-2, -1); (-2, 1); (-1, -2); (-1, 2); (1, -2); (1, 2); (2, -1); (2, 1)].

Definition king_moves : list (Z * Z) :=
  [(-1, -1); (-1, 0); (-1, 1); (0, -1); (0, 1); (1, -1); (1, 0); (1, 1)].

Definition get_knight_moves (b : Board) (row col : Z) : list Square :=
  match get_piece b row col with
  | None => []
  | Some piece => step_moves b piece row col knight_moves
  end.

Definition get_king_moves (b : Board) (row col : Z) : list Square :=
  match get_piece b row col with
  | None => []
  | Some piece => step_moves b piece row col king_moves
  end.

(** [Piece.get_legal_moves]: despite its name, the pseudo-legal moves. *)
Definition Piece_get_legal_moves (self : Piece) (b : Board) (row col : Z)
    : list Square :=
  match type self with
  | PAWN => get_pawn_moves b row col
  | ROOK => get_rook_moves b row col
  | KNIGHT => get_knight_moves b row col
  | BISHOP => get_bishop_moves b row col
  | QUEEN => get_queen_moves b row col
  | KING => get_king_moves b row col
  end.

(** ** Check detection *)

(** The squares in the order of the nested [range(ROWS)], [range(COLS)]
    loops. *)
Definition squares : list Square :=
  flat_map (λ r, map (λ c, (r, c)) (range 0 COLS)) (range 0 ROWS).

Definition is_square_attacked (b : Board) (row col : Z) (attacking_color : Color)
    : bool :=
  existsb (λ '(r, c),
    match get_piece b r c with
    | Some piece =>
        bool_decide (color piece = attacking_color)
        && existsb (square_eqb (row, col)) (Piece_get_legal_moves piece b r c)
    | None => false
    end) squares.

Definition find_king (b : Board) (c : Color) : option Square :=
  find (λ '(row, col),
    match get_piece b row col with
    | Some piece => bool_decide (color piece = c) && bool_decide (type piece = KING)
    | None => false
    end) squares.

Definition is_in_check (b : Board) (c : Color) : bool :=
  match find_king b c with
  | None => false
  | Some (king_row, king_col) =>
      is_square_attacked b king_row king_col
        (match c with WHITE => BLACK | BLACK => WHITE end)
  end.

(** ** Legal moves and terminal states *)

(** [temp_board = Board(); temp_board.board = [row[:] for row in self.board]]:
    a reset board whose grid is replaced; its other attributes stay as
    [reset] left them. *)
Definition temp_board (b : Board) : Board :=
  set_board (map (λ row, row) (board b)) reset.

Fixpoint legal_loop (b : Board) (piece : Piece) (row col : Z)
    (moves : list Square) : result (list Square) :=
  match moves with
  | [] => Ok []
  | move :: rest =>
      match make_move (row, col) move (temp_board b) with
      | (Raise e, _) => Raise e
      | (Ok _, temp) =>
          match legal_loop b piece row col rest with
          | Raise e => Raise e
          | Ok legal_moves =>
              Ok (if negb (is_in_check temp (color piece))
                  then move :: legal_moves else legal_moves)
          end
      end
  end.

Definition get_legal_moves (b : Board) (row col : Z) : result (list Square) :=
  match get_piece b row col with
  | None => Ok []
  | Some piece =>
      legal_loop b piece row col (Piece_get_legal_moves piece b row col)
  end.

(** The loop shared by [is_checkmate] and [is_stalemate]: [Ok false] at the
    first piece of [c] with a legal move, [Ok true] when there is none. *)
Fixpoint no_legal_move (b : Board) (c : Color) (sqs : list Square) : result bool :=
  match sqs with
  | [] => Ok true
  | (row, col) :: rest =>
      match get_piece b row col with
      | Some piece =>
          if bool_decide (color piece = c) then
            match get_legal_moves b row col with
            | Raise e => Raise e
            | Ok [] => no_legal_move b c rest
            | Ok (_ :: _) => Ok false
            end
          else no_legal_move b c rest
      | None => no_legal_move b c rest
      end
  end.

Definition is_checkmate (b : Board) (c : Color) : result bool :=
  if negb (is_in_check b c) then Ok false
  else no_legal_move b c squares.

Definition is_stalemate (b : Board) (c : Color) : result bool :=
  if is_in_check b c then Ok false
  else no_legal_move b c squares.

Definition wf_grid (b : Board) : Prop :=
  length (board b) = 8%nat ∧ Forall (λ r, length r = 8%nat) (board b).

(** ** Auxiliary definitions for the proofs *)

(** The grid after [self.board[row][col] = v] with both subscripts in
    range. *)
Definition set_cell (b : Board) (row col : Z) (v : option Piece) : Board :=
  set_board (alter (λ r, <[Z.to_nat col:=v]> r) (Z.to_nat row) (board b)) b.

Definition promotes (piece : Piece) (end_row : Z) : bool :=
  is_pawn piece && ((end_row =? 0) || (end_row =? 7)).

Definition double_step (piece : Piece) (start_row end_row : Z) : bool :=
  is_pawn piece && (Z.abs (start_row - end_row) =? 2).

(** The grid [make_move] leaves when every subscript is in range. *)
Definition moved_grid (b : Board) (start end_ : Square) (piece : Piece) : Board :=
  let b1 := if is_pawn piece && is_target end_ (en_passant_target b)
            then set_cell b start.1 end_.2 None else b in
  let b2 := set_cell b1 end_.1 end_.2 (Some piece) in
  let b3 := set_cell b2 start.1 start.2 None in
  if promotes piece end_.1
  then set_cell b3 end_.1 end_.2 (Some (mkPiece (color piece) QUEEN)) else b3.

Definition after_move (b : Board) (start end_ : Square) (piece : Piece) : Board :=
  mkBoard (board (moved_grid b start end_ piece))
    (if double_step piece start.1 end_.1
     then Some (end_.1 + (start.1 - end_.1) `div` 2, end_.2) else None)
    (other (current_player b))
    (move_history b ++ [(start, end_)]).


(** ** Board objects on a heap

    [get_legal_moves] builds a second [Board] and calls [make_move] on it
    while the board under evaluation is still in use, so which lists the two
    objects share matters.  Here rows are lists on a heap, a board's grid is
    the list of its rows' locations, and [make_move] writes through those
    locations.  (The outer list is never written after it is built, so it is
    kept by value in the object.) *)

Definition loc : Type := nat.

Record BoardObj : Type := mkObj {
  o_board : list loc;
  o_en_passant_target : option Square;
  o_current_player : Color;
  o_move_history : list Move
}.

Record Heap : Type := mkHeap {
  rows : list (list (option Piece));
  objs : list BoardObj
}.

Global Instance BoardObj_inhabited : Inhabited BoardObj :=
  populate (mkObj [] None WHITE []).

Definition row_at (h : Heap) (l : loc) : list (option Piece) := rows h !!! l.

Definition obj_at (h : Heap) (self : loc) : BoardObj := objs h !!! self.

(** The attributes of the object at [self], its grid read through the
    heap. *)
Definition snapshot (h : Heap) (self : loc) : Board :=
  let o := obj_at h self in
  mkBoard (row_at h <$> o_board o) (o_en_passant_target o)
          (o_current_player o) (o_move_history o).

Definition alloc_row (r : list (option Piece)) : M Heap loc :=
  λ h, (Ok (length (rows h)), mkHeap (rows h ++ [r]) (objs h)).

Definition alloc_obj (o : BoardObj) : M Heap loc :=
  λ h, (Ok (length (objs h)), mkHeap (rows h) (objs h ++ [o])).

Definition write_row (l : loc) (r : list (option Piece)) : M Heap unit :=
  modify (λ h, mkHeap (<[l:=r]> (rows h)) (objs h)).

Definition write_obj (self : loc) (f : BoardObj → BoardObj) : M Heap unit :=
  modify (λ h, mkHeap (rows h) (alter f self (objs h))).

(** [self.board[row][col]] *)
Definition Heap_getitem (self : loc) (row col : Z) : M Heap (option Piece) :=
  (o <- gets (λ h, obj_at h self) ;;
   l <- lift (getitem (o_board o) row) ;;
   r <- gets (λ h, row_at h l) ;;
   lift (getitem r col))%py.

(** [self.board[row][col] = v]: the row object is updated in place. *)
Definition Heap_setitem (self : loc) (row col : Z) (v : option Piece) : M Heap unit :=
  (o <- gets (λ h, obj_at h self) ;;
   l <- lift (getitem (o_board o) row) ;;
   r <- gets (λ h, row_at h l) ;;
   r' <- lift (setitem r col v) ;;
   write_row l r')%py.

Definition Heap_ops (self : loc) : BoardOps Heap := {|
  board_getitem := Heap_getitem self;
  board_setitem := Heap_setitem self;
  get_en_passant_target := gets (λ h, o_en_passant_target (obj_at h self));
  set_en_passant_target t :=
    write_obj self (λ o, mkObj (o_board o) t (o_current_player o) (o_move_history o));
  get_current_player := gets (λ h, o_current_player (obj_at h self));
  set_current_player c :=
    write_obj self (λ o, mkObj (o_board o) (o_en_passant_target o) c (o_move_history o));
  move_history_append m :=
    write_obj self (λ o, mkObj (o_board o) (o_en_passant_target o) (o_current_player o)
                               (o_move_history o ++ [m]))
|}.

(** A list of new rows with the given contents. *)
Fixpoint alloc_rows (contents : list (list (option Piece))) : M Heap (list loc) :=
  match contents with
  | [] => ret []
  | r :: rest =>
      (l <- alloc_row r ;;
       ls <- alloc_rows rest ;;
       ret (l :: ls))%py
  end.

(** [Board()]: a new object on which [reset] runs. *)
Definition new_Board : M Heap loc :=
  (grid <- alloc_rows (replicate (Z.to_nat ROWS) (replicate (Z.to_nat COLS) None)) ;;
   self <- alloc_obj (mkObj grid None WHITE []) ;;
   set_initial_position (ops := Heap_ops self) ;;
   write_obj self (λ o, mkObj (o_board o) None WHITE []) ;;
   ret self)%py.

(** [[row[:] for row in rows]]: each row is read and copied to a new list. *)
Fixpoint copy_rows (ls : list loc) : M Heap (list loc) :=
  match ls with
  | [] => ret []
  | l :: rest =>
      (r <- gets (λ h, row_at h l) ;;
       l' <- alloc_row r ;;
       ls' <- copy_rows rest ;;
       ret (l' :: ls'))%py
  end.

Fixpoint legal_loop_h (self : loc) (piece : Piece) (row col : Z)
    (moves : list Square) : M Heap (list Square) :=
  match moves with
  | [] => ret []
  | move :: rest =>
      (temp <- new_Board ;;
       o <- gets (λ h, obj_at h self) ;;
       grid <- copy_rows (o_board o) ;;
       write_obj temp (λ t, mkObj grid (o_en_passant_target t) (o_current_player t)
                                  (o_move_history t)) ;;
       make_move (ops := Heap_ops temp) (row, col) move ;;
       in_check <- gets (λ h, is_in_check (snapshot h temp) (color piece)) ;;
       legal_moves <- legal_loop_h self piece row col rest ;;
       ret (if negb in_check then move :: legal_moves else legal_moves))%py
  end.

(** [Board.get_legal_moves] on the object at [self]. *)
Definition get_legal_moves_h (self : loc) (row col : Z) : M Heap (list Square) :=
  (cell <- gets (λ h, get_piece (snapshot h self) row col) ;;
   match cell with
   | None => ret []
   | Some piece =>
       moves <- gets (λ h, Piece_get_legal_moves piece (snapshot h self) row col) ;;
       legal_loop_h self piece row col moves
   end)%py.

(** The object at [self] and the rows of its grid exist. *)
Definition allocated (h : Heap) (self : loc) : Prop :=
  (self < length (objs h))%nat
  ∧ Forall (λ l, (l < length (rows h))%nat) (o_board (obj_at h self)).

(** A heap holding one board in its opening position, at location 0. *)
Definition opening_heap : Heap := (new_Board (mkHeap [] [])).2.

(** ** Relating two runs of the same method *)

(** From related states, [m1] and [m2] return the same result (or raise the
    same exception) and leave related states. *)
Definition sim {S1 S2 A : Type} (R : S1 → S2 → Prop)
    (m1 : M S1 A) (m2 : M S2 A) : Prop :=
  ∀ s1 s2, R s1 s2 → (m1 s1).1 = (m2 s2).1 ∧ R (m1 s1).2 (m2 s2).2.

Record ops_sim {S1 S2 : Type} (R : S1 → S2 → Prop)
    (ops1 : BoardOps S1) (ops2 : BoardOps S2) : Prop := {
  sim_board_getitem : ∀ row col,
    sim R (board_getitem (BoardOps := ops1) row col) (board_getitem (BoardOps := ops2) row col);
  sim_board_setitem : ∀ row col v,
    sim R (board_setitem (BoardOps := ops1) row col v)
          (board_setitem (BoardOps := ops2) row col v);
  sim_get_en_passant_target :
    sim R (get_en_passant_target (BoardOps := ops1)) (get_en_passant_target (BoardOps := ops2));
  sim_set_en_passant_target : ∀ t,
    sim R (set_en_passant_target (BoardOps := ops1) t)
          (set_en_passant_target (BoardOps := ops2) t);
  sim_get_current_player :
    sim R (get_current_player (BoardOps := ops1)) (get_current_player (BoardOps := ops2));
  sim_set_current_player : ∀ c,
    sim R (set_current_player (BoardOps := ops1) c)
          (set_current_player (BoardOps := ops2) c);
  sim_move_history_append : ∀ m,
    sim R (move_history_append (BoardOps := ops1) m)
          (move_history_append (BoardOps := ops2) m)
}.

(** Everything allocated in [h0] is in [h], unchanged. *)
Definition extends (h0 h : Heap) : Prop :=
  rows h0 `prefix_of` rows h ∧ objs h0 `prefix_of` objs h.

(** The board at [temp] was built after [h0]: the object and its rows are
    new, the rows are pairwise distinct, and read through the heap the
    object is the board [tb]. *)
Definition scratch (h0 : Heap) (temp : loc) (h : Heap) (tb : Board) : Prop :=
  extends h0 h
  ∧ (length (objs h0) ≤ temp < length (objs h))%nat
  ∧ Forall (λ l, (length (rows h0) ≤ l < length (rows h))%nat) (o_board (obj_at h temp))
  ∧ NoDup (o_board (obj_at h temp))
  ∧ snapshot h temp = tb.

(** ** Vocabulary of the specification *)

Definition farthest_row (c : Color) : Z :=
  match c with WHITE => 0 | BLACK => 7 end.

(** A move from [start_row] to [end_row] goes in the direction [piece]'s
    color advances. *)
Definition advances (piece : Piece) (start_row end_row : Z) : Prop :=
  match color piece with
  | WHITE => end_row < start_row
  | BLACK => start_row < end_row
  end.

(** Promotion as the specification words it: after the move the destination
    holds a Queen of the mover's color exactly when the mover was a pawn
    reaching its farthest rank. *)
Definition queen_iff_pawn_promoted (b : Board) (start end_ : Square) : Prop :=
  ∀ piece b',
    get_piece b start.1 start.2 = Some piece →
    make_move start end_ b = (Ok tt, b') →
    (get_piece b' end_.1 end_.2 = Some (mkPiece (color piece) QUEEN)
     ↔ type piece = PAWN ∧ end_.1 = farthest_row (color piece)).

(** The specification's [legal_moves]: the scratch copy on which each
    candidate is simulated is the whole position, en-passant target
    included. *)
Fixpoint legal_loop_spec (b : Board) (piece : Piece) (row col : Z)
    (moves : list Square) : result (list Square) :=
  match moves with
  | [] => Ok []
  | move :: rest =>
      match make_move (row, col) move b with
      | (Raise e, _) => Raise e
      | (Ok _, scratch) =>
          match legal_loop_spec b piece row col rest with
          | Raise e => Raise e
          | Ok legal_moves =>
              Ok (if negb (is_in_check scratch (color piece))
                  then move :: legal_moves else legal_moves)
          end
      end
  end.

Definition legal_moves_spec (b : Board) (row col : Z) : result (list Square) :=
  match get_piece b row col with
  | None => Ok []
  | Some piece =>
      legal_loop_spec b piece row col (Piece_get_legal_moves piece b row col)
  end.


(** Two boards with the same grid and the same en-passant target. *)
Definition same_layout (b1 b2 : Board) : Prop :=
  board b1 = board b2 ∧ en_passant_target b1 = en_passant_target b2.

(** One board, seen twice, with an 8x8 grid. *)
Definition wf_invariant (b1 b2 : Board) : Prop := b1 = b2 ∧ wf_grid b1.

(** ** Positions used as examples *)

(** The board after playing [moves] in order from [b]. *)
Definition play (moves : list Move) (b : Board) : Board :=
  fold_left (λ b m, (make_move m.1 m.2 b).2) moves b.

(** An empty grid with the given pieces put down. *)
Definition place (pieces : list (Square * Piece)) (b : Board) : Board :=
  fold_left (λ b sp, set_cell b sp.1.1 sp.1.2 (Some sp.2)) pieces b.

(** 1. e4 e5 *)
Definition after_e4_e5 : Board :=
  play [((6, 4), (4, 4)); ((1, 4), (3, 4))] reset.

(** 1. h3 d5 2. h4 d4 3. e4: the Black pawn on (4,3) stands beside the White
    pawn that has just jumped over (5,4). *)
Definition en_passant_position : Board :=
  play [((6, 7), (5, 7)); ((1, 3), (3, 3)); ((5, 7), (4, 7)); ((3, 3), (4, 3));
        ((6, 4), (4, 4))] reset.

(** A White pawn one step from promotion. *)
Definition promotion_position : Board :=
  place [((7, 4), mkPiece WHITE KING); ((0, 7), mkPiece BLACK KING);
         ((1, 0), mkPiece WHITE PAWN)] blank.

(** A game as [ChessGame.handle_click] lets it be played: each move starts
    on a piece of the side to move and ends on one of its legal moves. *)
Fixpoint legal_game (moves : list Move) (b : Board) : bool :=
  match moves with
  | [] => true
  | (start, end_) :: rest =>
      match get_piece b start.1 start.2, get_legal_moves b start.1 start.2 with
      | Some piece, Ok legal_moves =>
          bool_decide (color piece = current_player b)
          && existsb (square_eqb end_) legal_moves
          && legal_game rest (make_move start end_ b).2
      | _, _ => false
      end
  end.

(** 1. e4 a6 2. e5 a5 3. Ke2 a4 4. Ke3 h6 5. Ke4 d5+ *)
Definition en_passant_check_game : list Move :=
  [((6, 4), (4, 4)); ((1, 0), (2, 0)); ((4, 4), (3, 4)); ((2, 0), (3, 0));
   ((7, 4), (6, 4)); ((3, 0), (4, 0)); ((6, 4), (5, 4)); ((1, 7), (2, 7));
   ((5, 4), (4, 4)); ((1, 3), (3, 3))].

(** Black has just played its pawn from (1,3) to (3,3), giving check to the
    White king on (4,4); the White pawn on (3,4) can take it en passant on
    (2,3). *)
Definition en_passant_check_position : Board :=
  play en_passant_check_game reset.

(** 1. f3 e5 2. g4 Qh4: White is mated. *)
Definition fools_mate : Board :=
  play [((6, 5), (5, 5)); ((1, 4), (3, 4)); ((6, 6), (4, 6)); ((0, 3), (4, 7))] reset.


(** 1. e4 d5: the White pawn on (4,4) can take the Black pawn on (3,3). *)
Definition after_e4_d5 : Board :=
  play [((6, 4), (4, 4)); ((1, 3), (3, 3))] reset.

(** ** Vocabulary for the remaining properties *)

(** No pawn stands on row 0 or row 7: [make_move] turns a pawn that arrives
    there into a queen. *)
Definition no_pawn_on_edge (b : Board) : Prop :=
  ∀ row col piece,
    row = 0 ∨ row = 7 → get_piece b row col = Some piece → type piece ≠ PAWN.

(** The boards a game goes through: an 8x8 grid without a pawn on the first
    or the last row. *)
Definition sound (b : Board) : Prop := wf_grid b ∧ no_pawn_on_edge b.

(** [sound], decided. *)
Definition soundb (b : Board) : bool :=
  bool_decide (length (board b) = 8%nat)
  && forallb (λ r : list (option Piece), bool_decide (length r = 8%nat)) (board b)
  && forallb (λ row,
       forallb (λ col,
         match get_piece b row col with
         | Some piece => negb (is_pawn piece)
         | None => true
         end) (range 0 COLS)) [0; 7].

(** Every square strictly between (r,c) and (tr,tc), taken along the row, the
    column or the diagonal that joins them, is empty. *)
Definition clear_between (b : Board) (r c tr tc : Z) : Prop :=
  ∀ j, 0 < j < Z.max (Z.abs (tr - r)) (Z.abs (tc - c)) →
       get_piece b (r + j * Z.sgn (tr - r)) (c + j * Z.sgn (tc - c)) = None.

(** A piece of this kind and color standing on (r,c) bears on (tr,tc), as
    the rules of chess have it: a pawn one row ahead and one column aside, a
    knight by its jump, a king on the adjacent squares, a rook, bishop or
    queen along its lines with nothing in between. *)
Definition bears_on (b : Board) (piece : Piece) (r c tr tc : Z) : Prop :=
  let dr := tr - r in
  let dc := tc - c in
  match type piece with
  | PAWN => dr = (match color piece with WHITE => -1 | BLACK => 1 end)
            ∧ Z.abs dc = 1
  | KNIGHT => (Z.abs dr = 1 ∧ Z.abs dc = 2) ∨ (Z.abs dr = 2 ∧ Z.abs dc = 1)
  | KING => Z.max (Z.abs dr) (Z.abs dc) = 1
  | ROOK => (dr = 0 ∨ dc = 0) ∧ (dr ≠ 0 ∨ dc ≠ 0) ∧ clear_between b r c tr tc
  | BISHOP => Z.abs dr = Z.abs dc ∧ dr ≠ 0 ∧ clear_between b r c tr tc
  | QUEEN => (dr = 0 ∨ dc = 0 ∨ Z.abs dr = Z.abs dc) ∧ (dr ≠ 0 ∨ dc ≠ 0)
             ∧ clear_between b r c tr tc
  end.

(** ** The game: [Piece.__str__], [PIECES] and [ChessGame] *)

Definition WIDTH : Z := 640.
Definition SQUARE_SIZE : Z := WIDTH `div` COLS.

Definition Color_value (c : Color) : string :=
  match c with WHITE => "w" | BLACK => "b" end.

Definition PieceType_value (t : PieceType) : string :=
  match t with
  | PAWN => "P" | ROOK => "R" | KNIGHT => "N"
  | BISHOP => "B" | QUEEN => "Q" | KING => "K"
  end.

(** [Piece.__str__] *)
Definition Piece_str (self : Piece) : string :=
  String.append (Color_value (color self)) (PieceType_value (type self)).

(** The keys of the [PIECES] dictionary, in the order they are written. *)
Definition PIECES_keys : list string :=
  ["wP"; "wR"; "wN"; "wB"; "wQ"; "wK"; "bP"; "bR"; "bN"; "bB"; "bQ"; "bK"]%string.

Module ChessGame.

(** The attributes of a [ChessGame]; [board] is the game's [Board]. *)
Record t : Type := mk {
  board : Board;
  selected_piece : option Square;
  dragging_piece : option (string * (Z * Z));
  legal_moves : list Square;
  game_over : bool;
  winner : option Color
}.

(** [ChessGame()] *)
Definition init : t := mk reset None None [] false None.

Definition set_board (b : Board) (g : t) : t :=
  mk b (selected_piece g) (dragging_piece g) (legal_moves g) (game_over g) (winner g).

Definition set_selected_piece (s : option Square) (g : t) : t :=
  mk (board g) s (dragging_piece g) (legal_moves g) (game_over g) (winner g).

Definition set_dragging_piece (d : option (string * (Z * Z))) (g : t) : t :=
  mk (board g) (selected_piece g) d (legal_moves g) (game_over g) (winner g).

Definition set_legal_moves (l : list Square) (g : t) : t :=
  mk (board g) (selected_piece g) (dragging_piece g) l (game_over g) (winner g).

Definition set_game_over (v : bool) (g : t) : t :=
  mk (board g) (selected_piece g) (dragging_piece g) (legal_moves g) v (winner g).

Definition set_winner (w : option Color) (g : t) : t :=
  mk (board g) (selected_piece g) (dragging_piece g) (legal_moves g) (game_over g) w.

(** A method of [self.board] that mutates it, called from the game. *)
Definition on_board {A} (m : M Board A) : M t A :=
  λ g, let '(r, b) := m (board g) in (r, set_board b g).

Definition check_game_over : M t unit :=
  (player <- gets (λ g, current_player (board g)) ;;
   mate <- gets (λ g, is_checkmate (board g) player) ;;
   mate <- lift mate ;;
   if mate then
     modify (set_game_over true) ;;
     modify (set_winner (Some (match player with BLACK => WHITE | WHITE => BLACK end)))
   else
     stale <- gets (λ g, is_stalemate (board g) player) ;;
     stale <- lift stale ;;
     if stale then
       modify (set_game_over true) ;;
       modify (set_winner None)
     else ret tt)%py.

(** The three assignments made when a piece of the side to move is clicked. *)
Definition select (row col : Z) (piece : Piece) (pos : Z * Z) : M t unit :=
  (modify (set_selected_piece (Some (row, col))) ;;
   modify (set_dragging_piece (Some (Piece_str piece, pos))) ;;
   moves <- gets (λ g, get_legal_moves (board g) row col) ;;
   moves <- lift moves ;;
   modify (set_legal_moves moves))%py.

Definition deselect : M t unit :=
  (modify (set_selected_piece None) ;;
   modify (set_dragging_piece None) ;;
   modify (set_legal_moves []))%py.

(** [piece is not None and piece.color == self.board.current_player] *)
Definition owned (cell : option Piece) (player : Color) : option Piece :=
  match cell with
  | Some piece => if bool_decide (color piece = player) then Some piece else None
  | None => None
  end.

Definition handle_click (pos : Z * Z) : M t unit :=
  (over <- gets game_over ;;
   if over then ret tt
   else
     let col := pos.1 `div` SQUARE_SIZE in
     let row := pos.2 `div` SQUARE_SIZE in
     cell <- gets (λ g, get_piece (board g) row col) ;;
     selected <- gets selected_piece ;;
     match selected with
     | None =>
         player <- gets (λ g, current_player (board g)) ;;
         match owned cell player with
         | Some piece => select row col piece pos
         | None => ret tt
         end
     | Some start =>
         moves <- gets legal_moves ;;
         if existsb (square_eqb (row, col)) moves then
           on_board (make_move start (row, col)) ;;
           deselect ;;
           check_game_over
         else
           player <- gets (λ g, current_player (board g)) ;;
           match owned cell player with
           | Some piece => select row col piece pos
           | None => deselect
           end
     end)%py.

Definition handle_drag (pos : Z * Z) : M t unit :=
  (dragging <- gets dragging_piece ;;
   match dragging with
   | Some (name, _) => modify (set_dragging_piece (Some (name, pos)))
   | None => ret tt
   end)%py.

End ChessGame.

(** ** The event loop of [main] *)

Inductive Event : Type :=
| QUIT
| MOUSEBUTTONDOWN
| MOUSEMOTION
| MOUSEBUTTONUP
| KEYDOWN (key : Z)
| OTHER.

(** pygame's code of the r key. *)
Definition K_r : Z := 114.

(** The variables of [main] that the events change. *)
Record App : Type := mkApp {
  game : ChessGame.t;
  running : bool
}.

(** [game.m(...)] *)
Definition on_game {A} (m : M ChessGame.t A) : M App A :=
  λ a, let '(r, g) := m (game a) in (r, mkApp g (running a)).

(** The body of [for event in pygame.event.get()], with the position
    [pygame.mouse.get_pos()] returns at that moment. *)
Definition handle_event (event : Event) (mouse_pos : Z * Z) : M App unit :=
  match event with
  | QUIT => modify (λ a, mkApp (game a) false)
  | MOUSEBUTTONDOWN => on_game (ChessGame.handle_click mouse_pos)
  | MOUSEMOTION => on_game (ChessGame.handle_drag mouse_pos)
  | MOUSEBUTTONUP => on_game (ChessGame.handle_click mouse_pos)
  | KEYDOWN key =>
      if key =? K_r then modify (λ a, mkApp ChessGame.init (running a))
      else ret tt
  | OTHER => ret tt
  end.

(** [main] before its loop. *)
Definition App_init : App := mkApp ChessGame.init true.

(** The states [main] goes through, as long as no event raises. *)
Inductive reachable : App → Prop :=
| reachable_init : reachable App_init
| reachable_event a event mouse_pos a' :
    reachable a → handle_event event mouse_pos a = (Ok tt, a') → reachable a'.

(** What holds of the game between two events: the board is 8x8 with no
    pawn on its first or last row; the selection, if any, is a piece of the
    side to move and [legal_moves] are its legal moves; the image dragged is
    one of [PIECES]; and [game_over] and [winner] say what [is_checkmate]
    and [is_stalemate] say of the side to move. *)
Definition game_inv (g : ChessGame.t) : Prop :=
  let b := ChessGame.board g in
  let player := current_player b in
  sound b
  ∧ match ChessGame.selected_piece g with
    | Some (row, col) =>
        ∃ piece, get_piece b row col = Some piece
          ∧ color piece = player
          ∧ get_legal_moves b row col = Ok (ChessGame.legal_moves g)
    | None => ChessGame.legal_moves g = []
    end
  ∧ match ChessGame.dragging_piece g with
    | Some (name, _) => name ∈ PIECES_keys
    | None => True
    end
  ∧ (if ChessGame.game_over g then
       (is_checkmate b player = Ok true ∧ ChessGame.winner g = Some (other player))
       ∨ (is_checkmate b player = Ok false ∧ is_stalemate b player = Ok true
          ∧ ChessGame.winner g = None)
     else
       is_checkmate b player = Ok false ∧ is_stalemate b player = Ok false
       ∧ ChessGame.winner g = None).

(** ** One run of a method *)

(** From a state satisfying [P], [m] ends in a state and with a result (or
    an exception) satisfying [Q]. *)
Definition hoare {S A : Type} (P : S → Prop) (m : M S A)
    (Q : result A → S → Prop) : Prop :=
  ∀ s, P s → Q (m s).1 (m s).2.

(** [main] after a first click on the White pawn of column 4. *)
Definition after_first_click : App :=
  (handle_event MOUSEBUTTONDOWN (330, 500) App_init).2.

(** A game finished by the mate 1. f3 e5 2. g4 Qh4. *)
Definition finished_app : App :=
  mkApp (ChessGame.mk fools_mate None None [] true (Some BLACK)) true.
(* [naive_solver] clears hypotheses it has already consumed *)
Local Set Warnings "-clear-no-such-hyp".

(** ** Helper lemmas: the monad *)

Section MonadLemmas.
Context {S : Type}.

Lemma bind_ok {A B} (m : M S A) (k : A → M S B) s a s' :
  m s = (Ok a, s') → bind m k s = k a s'.
Proof. unfold bind. intros ->. reflexivity. Qed.

Lemma bind_raise {A B} (m : M S A) (k : A → M S B) s e s' :
  m s = (Raise e, s') → bind m k s = (Raise e, s').
Proof. unfold bind. intros ->. reflexivity. Qed.

End MonadLemmas.

(** ** Helper lemmas: subscripts on an 8x8 grid *)

Lemma is_valid_position_spec row col :
  is_valid_position row col = true ↔ 0 ≤ row < 8 ∧ 0 ≤ col < 8.
Proof. unfold is_valid_position, ROWS, COLS. lia. Qed.

Lemma norm_index_in_range len i :
  0 ≤ i < Z.of_nat len → norm_index len i = Some (Z.to_nat i).
Proof.
  intros Hi. unfold norm_index.
  replace ((0 <=? i) && (i <? Z.of_nat len)) with true by lia. reflexivity.
Qed.

Lemma getitem_in_range {A} (l : list A) i x :
  0 ≤ i → l !! Z.to_nat i = Some x → getitem l i = Ok x.
Proof.
  intros Hi Hx. unfold getitem.
  rewrite norm_index_in_range, Hx; [done|].
  apply lookup_lt_Some in Hx. lia.
Qed.

Lemma setitem_in_range {A} (l : list A) i x :
  0 ≤ i < Z.of_nat (length l) → setitem l i x = Ok (<[Z.to_nat i:=x]> l).
Proof. intros Hi. unfold setitem. by rewrite norm_index_in_range. Qed.

Lemma wf_grid_row b row :
  wf_grid b → 0 ≤ row < 8 →
  ∃ r, board b !! Z.to_nat row = Some r ∧ length r = 8%nat.
Proof.
  intros [Hlen Hrows] Hrow.
  destruct (lookup_lt_is_Some_2 (board b) (Z.to_nat row)) as [r Hr]; [lia|].
  exists r. split; [done|].
  rewrite Forall_forall in Hrows. apply Hrows.
  apply list_elem_of_lookup. eauto.
Qed.

Lemma wf_grid_cell b row col :
  wf_grid b → 0 ≤ row < 8 → 0 ≤ col < 8 →
  ∃ r, board b !! Z.to_nat row = Some r ∧ r !! Z.to_nat col = Some (get_piece b row col).
Proof.
  intros Hwf Hrow Hcol.
  destruct (wf_grid_row b row Hwf Hrow) as (r & Hr & Hlen).
  exists r. split; [done|].
  unfold get_piece.
  replace (is_valid_position row col) with true
    by (symmetry; apply is_valid_position_spec; lia).
  rewrite Hr.
  destruct (lookup_lt_is_Some_2 r (Z.to_nat col)) as [x Hx]; [lia|].
  by rewrite Hx.
Qed.

Lemma get_piece_getitem b row col :
  wf_grid b → is_valid_position row col = true →
  board_getitem row col b = (Ok (get_piece b row col), b).
Proof.
  intros Hwf Hv. apply is_valid_position_spec in Hv as [Hrow Hcol].
  destruct (wf_grid_cell b row col Hwf Hrow Hcol) as (r & Hr & Hc).
  cbn. unfold Board_getitem, bind, gets, lift.
  rewrite (getitem_in_range _ _ r) by (lia || done).
  by rewrite (getitem_in_range _ _ (get_piece b row col)) by (lia || done).
Qed.

Lemma board_setitem_set_cell b row col v :
  wf_grid b → is_valid_position row col = true →
  board_setitem row col v b = (Ok tt, set_cell b row col v).
Proof.
  intros Hwf Hv. apply is_valid_position_spec in Hv as [Hrow Hcol].
  destruct (wf_grid_row b row Hwf Hrow) as (r & Hr & Hlen).
  cbn. unfold Board_setitem, bind, gets, lift, modify.
  rewrite (getitem_in_range _ _ r) by (lia || done).
  rewrite setitem_in_range by lia.
  rewrite setitem_in_range by (destruct Hwf; lia).
  unfold set_cell. do 2 f_equal.
  apply list_eq. intros i.
  destruct (decide (i = Z.to_nat row)) as [->|Hne].
  - rewrite list_lookup_insert_eq by (destruct Hwf; lia).
    by rewrite list_lookup_alter_eq, Hr.
  - by rewrite list_lookup_insert_ne, list_lookup_alter_ne by done.
Qed.

Lemma set_cell_wf b row col v : wf_grid b → wf_grid (set_cell b row col v).
Proof.
  intros [Hlen Hrows]. split; cbn.
  - by rewrite length_alter.
  - rewrite Forall_forall in Hrows. apply Forall_forall. intros r Hin.
    apply list_elem_of_lookup in Hin as [i Hi].
    destruct (decide (i = Z.to_nat row)) as [->|Hne].
    + rewrite list_lookup_alter_eq in Hi.
      destruct (board b !! Z.to_nat row) as [r0|] eqn:Hr0; [|done].
      injection Hi as <-. rewrite length_insert.
      apply Hrows, list_elem_of_lookup. eauto.
    + rewrite list_lookup_alter_ne in Hi by done.
      apply Hrows, list_elem_of_lookup. eauto.
Qed.

Lemma get_piece_set_cell b row col v r c :
  wf_grid b → is_valid_position row col = true →
  get_piece (set_cell b row col v) r c =
    if decide ((r, c) = (row, col)) then v else get_piece b r c.
Proof.
  intros Hwf Hv. pose proof Hv as Hv'.
  apply is_valid_position_spec in Hv as [Hrow Hcol].
  unfold get_piece at 1.
  destruct (is_valid_position r c) eqn:Hrc.
  - apply is_valid_position_spec in Hrc as [Hr Hc].
    destruct (wf_grid_cell b r c Hwf Hr Hc) as (r0 & Hr0 & Hc0).
    cbn. destruct (decide (r = row)) as [->|Hner].
    + rewrite list_lookup_alter_eq, Hr0. cbn.
      destruct (decide (c = col)) as [->|Hnec].
      * rewrite list_lookup_insert_eq
          by (apply lookup_lt_Some in Hc0; lia).
        by rewrite decide_True.
      * rewrite list_lookup_insert_ne by lia. rewrite Hc0.
        rewrite decide_False; [done|congruence].
    + rewrite list_lookup_alter_ne by lia. rewrite Hr0, Hc0.
      rewrite decide_False; [done|congruence].
  - rewrite decide_False; [|intros [= -> ->]; congruence].
    unfold get_piece. by rewrite Hrc.
Qed.

Lemma reset_wf : wf_grid reset.
Proof. split; [reflexivity|]. vm_compute. repeat constructor. Qed.

(** ** Helper lemmas: [make_move] on a board by value *)

Lemma make_move_ok b start end_ piece :
  wf_grid b →
  is_valid_position start.1 start.2 = true →
  is_valid_position end_.1 end_.2 = true →
  get_piece b start.1 start.2 = Some piece →
  make_move start end_ b = (Ok tt, after_move b start end_ piece).
Proof.
  destruct start as [start_row start_col], end_ as [end_row end_col]. cbn [fst snd].
  intros Hwf Hs He Hp.
  assert (Hse : is_valid_position start_row end_col = true).
  { apply is_valid_position_spec. apply is_valid_position_spec in Hs, He. lia. }
  unfold make_move.
  erewrite bind_ok by (by apply get_piece_getitem).
  rewrite Hp. erewrite bind_ok by reflexivity.
  erewrite bind_ok by reflexivity.
  unfold after_move, moved_grid, promotes, double_step. cbn [fst snd].
  set (b1 := if is_pawn piece && is_target (end_row, end_col) (en_passant_target b)
             then set_cell b start_row end_col None else b).
  assert (Hwf1 : wf_grid b1).
  { subst b1. case_match; [by apply set_cell_wf|done]. }
  erewrite (bind_ok _ _ b _ b1); cycle 1.
  { subst b1. destruct (is_pawn piece && _); [|done].
    by apply board_setitem_set_cell. }
  erewrite bind_ok by (by apply board_setitem_set_cell).
  erewrite bind_ok by (apply board_setitem_set_cell; [by apply set_cell_wf|done]).
  set (b3 := set_cell (set_cell b1 end_row end_col (Some piece)) start_row start_col None).
  assert (Hwf3 : wf_grid b3) by (subst b3; by do 2 apply set_cell_wf).
  set (b4 := if is_pawn piece && ((end_row =? 0) || (end_row =? 7))
             then set_cell b3 end_row end_col (Some (mkPiece (color piece) QUEEN))
             else b3).
  erewrite (bind_ok _ _ b3 _ b4); cycle 1.
  { subst b4. destruct (is_pawn piece && ((end_row =? 0) || (end_row =? 7))).
    - by apply board_setitem_set_cell.
    - reflexivity. }
  assert (Hat : en_passant_target b4 = en_passant_target b
                ∧ current_player b4 = current_player b
                ∧ move_history b4 = move_history b).
  { subst b4 b3 b1. repeat case_match; done. }
  destruct Hat as (_ & Hpl & Hh).
  erewrite bind_ok by reflexivity.
  destruct (is_pawn piece && (Z.abs (start_row - end_row) =? 2));
    cbn; unfold bind, modify, gets; cbn; rewrite Hpl, Hh;
    by destruct (current_player b).
Qed.

Lemma get_piece_moved_grid b start end_ piece r c :
  wf_grid b →
  is_valid_position start.1 start.2 = true →
  is_valid_position end_.1 end_.2 = true →
  get_piece (moved_grid b start end_ piece) r c =
    if decide ((r, c) = end_ ∧ promotes piece end_.1 = true)
    then Some (mkPiece (color piece) QUEEN)
    else if decide ((r, c) = start) then None
    else if decide ((r, c) = end_) then Some piece
    else if decide ((r, c) = (start.1, end_.2)
                    ∧ (is_pawn piece && is_target end_ (en_passant_target b)) = true)
    then None
    else get_piece b r c.
Proof.
  destruct start as [start_row start_col], end_ as [end_row end_col]. cbn [fst snd].
  intros Hwf Hs He.
  assert (Hse : is_valid_position start_row end_col = true).
  { apply is_valid_position_spec. apply is_valid_position_spec in Hs, He. lia. }
  unfold moved_grid. cbn [fst snd].
  set (b1 := if is_pawn piece && is_target (end_row, end_col) (en_passant_target b)
             then set_cell b start_row end_col None else b).
  assert (Hwf1 : wf_grid b1).
  { subst b1. case_match; [by apply set_cell_wf|done]. }
  assert (H1 : get_piece b1 r c =
     if decide ((r, c) = (start_row, end_col)
                ∧ (is_pawn piece && is_target (end_row, end_col) (en_passant_target b)) = true)
     then None else get_piece b r c).
  { subst b1. destruct (is_pawn piece && _).
    - rewrite get_piece_set_cell by done. repeat case_decide; naive_solver.
    - case_decide; naive_solver. }
  destruct (promotes piece end_row).
  - rewrite !get_piece_set_cell by (done || by repeat apply set_cell_wf).
    rewrite H1. repeat case_decide; naive_solver.
  - rewrite !get_piece_set_cell by (done || by repeat apply set_cell_wf).
    rewrite H1. repeat case_decide; naive_solver.
Qed.

(** ** Helper lemmas: the generators *)

Lemma get_piece_Some_valid b row col piece :
  get_piece b row col = Some piece → is_valid_position row col = true.
Proof. unfold get_piece. by destruct (is_valid_position row col). Qed.

Lemma in_squares r c : In (r, c) squares ↔ is_valid_position r c = true.
Proof.
  unfold squares. rewrite in_flat_map, is_valid_position_spec. split.
  - intros (r' & Hr & Hc). apply in_map_iff in Hc as (c' & [= -> ->] & Hc).
    apply list_elem_of_In, elem_of_seqZ in Hr, Hc. unfold ROWS, COLS in *. lia.
  - intros [Hr Hc]. exists r. split.
    + apply list_elem_of_In, elem_of_seqZ. unfold ROWS. lia.
    + apply in_map, list_elem_of_In, elem_of_seqZ. unfold COLS. lia.
Qed.

Lemma square_eqb_eq a b : square_eqb a b = true ↔ a = b.
Proof.
  destruct a as [a1 a2], b as [b1 b2]. unfold square_eqb. cbn.
  rewrite andb_true_iff, !Z.eqb_eq. split; [intros [-> ->]; done|intros [= -> ->]; done].
Qed.

Lemma slide_valid b piece row col dr dc steps sq :
  In sq (slide b piece row col dr dc steps) → is_valid_position sq.1 sq.2 = true.
Proof.
  induction steps as [|i steps IH]; cbn; [done|].
  destruct (is_valid_position (row + i * dr) (col + i * dc)) eqn:Hv; cbn; [|done].
  destruct (get_piece b (row + i * dr) (col + i * dc)) as [t|]; cbn.
  - destruct (negb _); [|done]. intros [<-|[]]. done.
  - intros [<-|Hin]; [done|by apply IH].
Qed.

Lemma in_step_moves b piece row col offsets sq :
  In sq (step_moves b piece row col offsets) ↔
  ∃ dr dc, In (dr, dc) offsets ∧ sq = (row + dr, col + dc)
    ∧ is_valid_position (row + dr) (col + dc) = true
    ∧ (get_piece b (row + dr) (col + dc) = None
       ∨ is_enemy (Some piece) (get_piece b (row + dr) (col + dc)) = true).
Proof.
  unfold step_moves. rewrite in_flat_map. split.
  - intros ([dr dc] & Hin & Hsq). exists dr, dc. split; [done|].
    destruct (is_valid_position (row + dr) (col + dc)); [|done].
    destruct (get_piece b (row + dr) (col + dc)) as [t|] eqn:Ht; cbn in Hsq.
    + destruct (negb _) eqn:He; [|done]. destruct Hsq as [<-|[]]. auto.
    + destruct Hsq as [<-|[]]. auto.
  - intros (dr & dc & Hin & -> & Hv & Ht). exists (dr, dc). split; [done|].
    rewrite Hv. destruct Ht as [->| ->]; [by left|].
    rewrite orb_true_r. by left.
Qed.

Lemma in_pawn_moves b row col piece sq :
  get_piece b row col = Some piece →
  let direction := match color piece with WHITE => -1 | BLACK => 1 end in
  let start_row := match color piece with WHITE => 6 | BLACK => 1 end in
  In sq (get_pawn_moves b row col) ↔
    (sq = (row + direction, col) ∧ get_piece b (row + direction) col = None)
    ∨ (sq = (row + 2 * direction, col) ∧ row = start_row
       ∧ get_piece b (row + direction) col = None
       ∧ get_piece b (row + 2 * direction) col = None)
    ∨ (∃ dcol, (dcol = -1 ∨ dcol = 1) ∧ sq = (row + direction, col + dcol)
         ∧ is_valid_position (row + direction) (col + dcol) = true
         ∧ (is_enemy (Some piece) (get_piece b (row + direction) (col + dcol)) = true
            ∨ en_passant_target b = Some (row + direction, col + dcol))).
Proof.
  intros Hp direction start_row. unfold get_pawn_moves. rewrite Hp.
  fold direction. fold start_row. rewrite in_app_iff, in_flat_map.
  assert (Htg : ∀ s, is_target s (en_passant_target b) = true
                     ↔ en_passant_target b = Some s).
  { intros s. unfold is_target. destruct (en_passant_target b) as [t|]; [|done].
    rewrite square_eqb_eq. naive_solver. }
  split.
  - intros [Hf|(dcol & Hd & Hc)].
    + destruct (get_piece b (row + direction) col) eqn:H1; cbn in Hf; [done|].
      destruct Hf as [<-|Hf]; [by left|]. right; left.
      destruct (row =? start_row) eqn:Hr; cbn in Hf; [|done].
      destruct (get_piece b (row + 2 * direction) col) eqn:H2; cbn in Hf; [done|].
      destruct Hf as [<-|[]]. repeat split; try done. lia.
    + right; right. exists dcol. split.
      { cbn in Hd. naive_solver. }
      destruct (is_valid_position (row + direction) (col + dcol)); [|done].
      destruct (is_enemy _ _ || _) eqn:He; [|done]. destruct Hc as [<-|[]].
      split; [done|]. split; [done|].
      apply orb_true_iff in He as [He|He]; [by left|right; by apply Htg].
  - intros [[-> H1]|[(-> & Hr & H1 & H2)|(dcol & Hd & -> & Hv & He)]].
    + left. rewrite H1. by left.
    + left. rewrite H1, H2. cbn. replace (row =? start_row) with true by lia.
      right. by left.
    + right. exists dcol. split; [cbn; naive_solver|].
      rewrite Hv. replace (is_enemy _ _ || _) with true; [by left|].
      symmetry. apply orb_true_iff. destruct He as [He|He]; [by left|right; by apply Htg].
Qed.

(** Off its farthest rank a pawn, and anywhere any other piece, is given
    squares of the board only. *)
Lemma Piece_get_legal_moves_valid b row col piece sq :
  get_piece b row col = Some piece →
  (type piece = PAWN → row ≠ farthest_row (color piece)) →
  In sq (Piece_get_legal_moves piece b row col) →
  is_valid_position sq.1 sq.2 = true.
Proof.
  intros Hp Hfar Hin. pose proof (get_piece_Some_valid _ _ _ _ Hp) as Hv.
  apply is_valid_position_spec in Hv.
  unfold Piece_get_legal_moves in Hin. destruct (type piece) eqn:Hty.
  - apply (in_pawn_moves _ _ _ _ _ Hp) in Hin. specialize (Hfar eq_refl).
    unfold farthest_row in Hfar.
    destruct Hin as [[-> _]|[(-> & Hr & _)|(dcol & _ & -> & Hd & _)]]; [| |done];
      apply is_valid_position_spec; destruct (color piece); cbn; lia.
  - unfold get_rook_moves in Hin. rewrite Hp in Hin.
    apply in_flat_map in Hin as ([dr dc] & _ & Hin). by apply slide_valid in Hin.
  - unfold get_knight_moves in Hin. rewrite Hp in Hin.
    apply in_step_moves in Hin as (dr & dc & _ & -> & Hd & _). done.
  - unfold get_bishop_moves in Hin. rewrite Hp in Hin.
    apply in_flat_map in Hin as ([dr dc] & _ & Hin). by apply slide_valid in Hin.
  - unfold get_queen_moves, get_rook_moves, get_bishop_moves in Hin.
    rewrite Hp in Hin.
    apply in_app_iff in Hin as [Hin|Hin];
      apply in_flat_map in Hin as ([dr dc] & _ & Hin); by apply slide_valid in Hin.
  - unfold get_king_moves in Hin. rewrite Hp in Hin.
    apply in_step_moves in Hin as (dr & dc & _ & -> & Hd & _). done.
Qed.

(** ** Helper lemmas: check detection *)

Lemma is_square_attacked_spec b row col attacking_color :
  is_square_attacked b row col attacking_color = true ↔
  ∃ r c piece, get_piece b r c = Some piece ∧ color piece = attacking_color
    ∧ In (row, col) (Piece_get_legal_moves piece b r c).
Proof.
  unfold is_square_attacked. rewrite existsb_exists. split.
  - intros ([r c] & _ & H). destruct (get_piece b r c) as [piece|] eqn:Hp; [|done].
    apply andb_true_iff in H as [Hc Hm]. apply bool_decide_eq_true in Hc.
    apply existsb_exists in Hm as (sq & Hin & Heq).
    apply square_eqb_eq in Heq as <-. by exists r, c, piece.
  - intros (r & c & piece & Hp & Hc & Hin). exists (r, c). split.
    + apply in_squares. by eapply get_piece_Some_valid.
    + rewrite Hp. apply andb_true_iff. split; [by apply bool_decide_eq_true|].
      apply existsb_exists. exists (row, col). split; [done|by apply square_eqb_eq].
Qed.

Lemma is_king_of b c row col :
  match get_piece b row col with
  | Some piece => bool_decide (color piece = c) && bool_decide (type piece = KING)
  | None => false
  end = true ↔ get_piece b row col = Some (mkPiece c KING).
Proof.
  destruct (get_piece b row col) as [[c' t]|]; cbn; [|done].
  rewrite andb_true_iff, !bool_decide_eq_true. naive_solver.
Qed.

Lemma find_king_Some b c kr kc :
  find_king b c = Some (kr, kc) → get_piece b kr kc = Some (mkPiece c KING).
Proof.
  unfold find_king. intros H. apply find_some in H as [_ H]. by apply is_king_of.
Qed.

Lemma find_king_None b c :
  find_king b c = None ↔ ∀ row col, get_piece b row col ≠ Some (mkPiece c KING).
Proof.
  split.
  - unfold find_king. intros H row col Hp.
    pose proof (find_none _ _ H (row, col)) as Hn. cbn in Hn.
    apply is_king_of in Hp. rewrite Hp in Hn.
    assert (Hin : In (row, col) squares).
    { apply in_squares. apply is_king_of in Hp. by eapply get_piece_Some_valid. }
    specialize (Hn Hin). done.
  - intros H. destruct (find_king b c) as [[kr kc]|] eqn:Hf; [|done].
    apply find_king_Some in Hf. by apply H in Hf.
Qed.

(** ** Helper lemmas: terminal states *)

Lemma no_legal_move_true b c sqs :
  no_legal_move b c sqs = Ok true ↔
  ∀ row col piece, In (row, col) sqs → get_piece b row col = Some piece →
    color piece = c → get_legal_moves b row col = Ok [].
Proof.
  induction sqs as [|[r c0] sqs IH]; cbn [no_legal_move].
  - split; [intros _ ? ? ? []|done].
  - destruct (get_piece b r c0) as [piece|] eqn:Hp.
    + destruct (bool_decide (color piece = c)) eqn:Hc.
      * apply bool_decide_eq_true in Hc.
        destruct (get_legal_moves b r c0) as [[|m ms]|e] eqn:Hl.
        -- rewrite IH. split.
           ++ intros H row col piece' [[= <- <-]|Hin] Hp' Hc'; [done|by eapply H].
           ++ intros H row col piece' Hin. apply H. by right.
        -- split; [done|]. intros H.
           specialize (H r c0 piece (or_introl eq_refl) Hp Hc). congruence.
        -- split; [done|]. intros H.
           specialize (H r c0 piece (or_introl eq_refl) Hp Hc). congruence.
      * apply bool_decide_eq_false in Hc. rewrite IH. split.
        -- intros H row col piece' [[= <- <-]|Hin] Hp' Hc'; [congruence|by eapply H].
        -- intros H row col piece' Hin. apply H. by right.
    + rewrite IH. split.
      * intros H row col piece' [[= <- <-]|Hin] Hp' Hc'; [congruence|by eapply H].
      * intros H row col piece' Hin. apply H. by right.
Qed.

Lemma no_legal_move_squares b c :
  no_legal_move b c squares = Ok true ↔
  ∀ row col piece, get_piece b row col = Some piece → color piece = c →
    get_legal_moves b row col = Ok [].
Proof.
  rewrite no_legal_move_true. split.
  - intros H row col piece Hp Hc. eapply H; [|done..].
    apply in_squares. by eapply get_piece_Some_valid.
  - intros H row col piece _. apply H.
Qed.

(** ** Helper lemmas: sliding *)

Lemma in_slide b piece row col dr dc (n : nat) : ∀ s sq,
  In sq (slide b piece row col dr dc (seqZ s (Z.of_nat n))) ↔
  ∃ k, s ≤ k < s + Z.of_nat n ∧ sq = (row + k * dr, col + k * dc)
    ∧ (∀ j, s ≤ j ≤ k → is_valid_position (row + j * dr) (col + j * dc) = true)
    ∧ (∀ j, s ≤ j < k → get_piece b (row + j * dr) (col + j * dc) = None)
    ∧ (get_piece b (row + k * dr) (col + k * dc) = None
       ∨ is_enemy (Some piece) (get_piece b (row + k * dr) (col + k * dc)) = true).
Proof.
  induction n as [|n IH]; intros s sq.
  - cbn. split; [done|]. intros (k & Hk & _). lia.
  - rewrite seqZ_cons by lia.
    replace (Z.pred (Z.of_nat (S n))) with (Z.of_nat n) by lia.
    cbn [slide].
    destruct (is_valid_position (row + s * dr) (col + s * dc)) eqn:Hv; cbn [negb].
    + destruct (get_piece b (row + s * dr) (col + s * dc)) as [t|] eqn:Ht; cbn [is_none].
      * assert (Hks : ∀ k, s ≤ k →
            (∀ j, s ≤ j < k → get_piece b (row + j * dr) (col + j * dc) = None) → k = s).
        { intros k Hk Hall. destruct (decide (k = s)) as [|Hne]; [done|].
          rewrite Hall in Ht by lia. done. }
        destruct (is_enemy (Some piece) (Some t)) eqn:He.
        -- split.
           ++ intros [<-|[]]. exists s. split; [lia|]. split; [done|].
              split; [intros j Hj; by replace j with s by lia|].
              split; [intros j Hj; lia|]. right. by rewrite Ht.
           ++ intros (k & Hk & -> & _ & Hall & _).
              rewrite (Hks k) by (lia || done). by left.
        -- split; [done|]. intros (k & Hk & -> & _ & Hall & Hend).
           rewrite (Hks k) in Hend by (lia || done). rewrite Ht in Hend.
           destruct Hend; congruence.
      * cbn [In]. rewrite IH. split.
        -- intros [<-|(k & Hk & -> & Hval & Hall & Hend)].
           ++ exists s. split; [lia|]. split; [done|].
              split; [intros j Hj; by replace j with s by lia|].
              split; [intros j Hj; lia|]. by left.
           ++ exists k. split; [lia|]. split; [done|].
              split.
              { intros j Hj. destruct (decide (j = s)) as [->|]; [done|]. apply Hval. lia. }
              split; [|done].
              intros j Hj. destruct (decide (j = s)) as [->|]; [done|]. apply Hall. lia.
        -- intros (k & Hk & -> & Hval & Hall & Hend).
           destruct (decide (k = s)) as [->|Hne]; [by left|]. right.
           exists k. split; [lia|]. split; [done|].
           split; [intros j Hj; apply Hval; lia|].
           split; [intros j Hj; apply Hall; lia|done].
    + split; [done|]. intros (k & Hk & _ & Hval & _).
      rewrite Hval in Hv by lia. done.
Qed.



(** [is_enemy], by the colors of the pieces. *)
Lemma is_enemy_color piece target :
  is_enemy (Some piece) target = true ↔
  ∃ t, target = Some t ∧ color t ≠ color piece.
Proof.
  unfold is_enemy. destruct target as [t|].
  - rewrite negb_true_iff, bool_decide_eq_false. split.
    + intros Hne. exists t. split; [done|]. intros Heq. by apply Hne.
    + intros (t' & [= <-] & Hne) Heq. by apply Hne.
  - split; [done|]. by intros (t & ? & _).
Qed.

(** ** Helper lemmas: simulation *)

Section SimLemmas.
Context {S1 S2 : Type} (R : S1 → S2 → Prop).

Lemma sim_ret {A} (a : A) : sim R (ret a) (ret a).
Proof. by intros s1 s2 HR. Qed.

Lemma sim_raise {A} (e : exn) : sim R (raise (A := A) e) (raise e).
Proof. by intros s1 s2 HR. Qed.

Lemma sim_lift {A} (r : result A) : sim R (lift r) (lift r).
Proof. by intros s1 s2 HR. Qed.

Lemma sim_bind {A B} (m1 : M S1 A) (m2 : M S2 A) (k1 : A → M S1 B) (k2 : A → M S2 B) :
  sim R m1 m2 → (∀ a, sim R (k1 a) (k2 a)) → sim R (bind m1 k1) (bind m2 k2).
Proof.
  intros Hm Hk s1 s2 HR. unfold bind.
  destruct (Hm s1 s2 HR) as [Hres HR'].
  destruct (m1 s1) as [r1 s1'], (m2 s2) as [r2 s2']. cbn in Hres, HR'. subst r2.
  destruct r1 as [a|e]; [by apply Hk|done].
Qed.

Lemma sim_when c (m1 : M S1 unit) (m2 : M S2 unit) :
  sim R m1 m2 → sim R (when c m1) (when c m2).
Proof. destruct c; [done|]. intros _. apply sim_ret. Qed.

Lemma sim_for_each {A} (xs : list A) (f1 : A → M S1 unit) (f2 : A → M S2 unit) :
  (∀ x, sim R (f1 x) (f2 x)) → sim R (for_each xs f1) (for_each xs f2).
Proof.
  intros Hf. induction xs as [|x xs IH]; cbn [for_each]; [apply sim_ret|].
  apply sim_bind; [apply Hf|by intros _].
Qed.

Context (ops1 : BoardOps S1) (ops2 : BoardOps S2) (Hops : ops_sim R ops1 ops2).

(** [make_move] up to its last three statements, which touch the side to
    move and the history only. *)
Lemma sim_make_move_upto start end_ :
  (∀ row col, sim R (board_getitem (BoardOps := ops1) row col)
                    (board_getitem (BoardOps := ops2) row col)) →
  (∀ row col v, sim R (board_setitem (BoardOps := ops1) row col v)
                      (board_setitem (BoardOps := ops2) row col v)) →
  sim R (get_en_passant_target (BoardOps := ops1))
        (get_en_passant_target (BoardOps := ops2)) →
  (∀ t, sim R (set_en_passant_target (BoardOps := ops1) t)
              (set_en_passant_target (BoardOps := ops2) t)) →
  sim R (player <- get_current_player (BoardOps := ops1) ;;
         set_current_player (match player with WHITE => BLACK | BLACK => WHITE end) ;;
         move_history_append (start, end_))%py
        (player <- get_current_player (BoardOps := ops2) ;;
         set_current_player (match player with WHITE => BLACK | BLACK => WHITE end) ;;
         move_history_append (start, end_))%py →
  sim R (make_move (ops := ops1) start end_) (make_move (ops := ops2) start end_).
Proof.
  intros Hget Hset Hgt Hst Htail.
  destruct start as [start_row start_col], end_ as [end_row end_col].
  unfold make_move.
  apply sim_bind; [done|]. intros cell.
  apply sim_bind; [destruct cell; [apply sim_ret|apply sim_raise]|]. intros piece.
  apply sim_bind; [done|]. intros target.
  apply sim_bind; [by apply sim_when|]. intros _.
  apply sim_bind; [done|]. intros _.
  apply sim_bind; [done|]. intros _.
  apply sim_bind; [by apply sim_when|]. intros _.
  apply sim_bind; [done|]. intros _.
  apply sim_bind; [by apply sim_when|]. intros _.
  exact Htail.
Qed.

Lemma sim_make_move start end_ :
  sim R (make_move (ops := ops1) start end_) (make_move (ops := ops2) start end_).
Proof.
  destruct Hops. apply sim_make_move_upto; try done.
  apply sim_bind; [done|]. intros player.
  apply sim_bind; [done|]. intros _. done.
Qed.

Lemma sim_set_initial_position :
  sim R (set_initial_position (ops := ops1)) (set_initial_position (ops := ops2)).
Proof.
  destruct Hops. unfold set_initial_position.
  apply sim_for_each. intros col.
  apply sim_bind; [apply sim_lift|]. intros kind.
  repeat (apply sim_bind; [done|]; intros _). done.
Qed.
End SimLemmas.

(** ** Helper lemmas: subscripts through the heap *)

Lemma getitem_fmap {A B} (f : A → B) (l : list A) i :
  getitem (f <$> l) i =
    match getitem l i with Ok x => Ok (f x) | Raise e => Raise e end.
Proof.
  unfold getitem. rewrite length_fmap.
  destruct (norm_index (length l) i) as [n|]; [|done].
  rewrite list_lookup_fmap. by destruct (l !! n).
Qed.

Lemma getitem_Ok {A} (l : list A) i x :
  getitem l i = Ok x →
  ∃ n, norm_index (length l) i = Some n ∧ l !! n = Some x.
Proof.
  unfold getitem. destruct (norm_index (length l) i) as [n|]; [|done].
  destruct (l !! n) as [y|] eqn:Hy; [|done]. intros [= ->]. eauto.
Qed.

(** Writing one row of a grid whose rows are distinct changes that row
    only. *)
Lemma fmap_lookup_insert_NoDup {A} `{!Inhabited A} (rws : list A) (ls : list nat) n l x :
  NoDup ls → ls !! n = Some l → (l < length rws)%nat →
  (λ k, <[l:=x]> rws !!! k) <$> ls = <[n:=x]> ((λ k, rws !!! k) <$> ls).
Proof.
  intros Hnd Hn Hl. apply list_eq. intros i.
  rewrite list_lookup_fmap.
  destruct (decide (i = n)) as [->|Hne].
  - rewrite Hn. cbn. rewrite list_lookup_total_insert_eq by done.
    rewrite list_lookup_insert_eq; [done|].
    rewrite length_fmap. by eapply lookup_lt_Some.
  - rewrite list_lookup_insert_ne by done. rewrite list_lookup_fmap.
    destruct (ls !! i) as [k|] eqn:Hk; [|done]. cbn. f_equal.
    apply list_lookup_total_insert_ne. intros <-.
    apply Hne. by eapply NoDup_lookup.
Qed.

Lemma prefix_insert_ge {A} (l1 l2 : list A) i x :
  l1 `prefix_of` l2 → (length l1 ≤ i)%nat → l1 `prefix_of` <[i:=x]> l2.
Proof.
  intros [k ->] Hi. rewrite insert_app_r_alt by done. by apply prefix_app_r.
Qed.

Lemma prefix_alter_ge {A} (f : A → A) (l1 l2 : list A) i :
  l1 `prefix_of` l2 → (length l1 ≤ i)%nat → l1 `prefix_of` alter f i l2.
Proof.
  intros [k ->] Hi. rewrite alter_app_r_alt by done. by apply prefix_app_r.
Qed.

Lemma extends_refl h : extends h h.
Proof. by split. Qed.

Lemma extends_trans h1 h2 h3 : extends h1 h2 → extends h2 h3 → extends h1 h3.
Proof. intros [? ?] [? ?]. split; by etrans. Qed.

Lemma prefix_lookup_total {A} `{!Inhabited A} (l1 l2 : list A) i :
  l1 `prefix_of` l2 → (i < length l1)%nat → l2 !!! i = l1 !!! i.
Proof. intros [k ->] Hi. by apply lookup_total_app_l. Qed.

(** What was allocated in [h0] reads the same in any heap that extends it. *)
Lemma extends_snapshot h0 h self :
  extends h0 h → allocated h0 self →
  snapshot h self = snapshot h0 self ∧ allocated h self.
Proof.
  intros [Hr Ho] [Hself Hrows].
  assert (Hobj : obj_at h self = obj_at h0 self).
  { unfold obj_at. by apply prefix_lookup_total. }
  assert (Hrow : row_at h <$> o_board (obj_at h0 self)
                 = row_at h0 <$> o_board (obj_at h0 self)).
  { apply list_eq. intros i. rewrite !list_lookup_fmap.
    destruct (o_board (obj_at h0 self) !! i) as [l|] eqn:Hl; [|done]. cbn. f_equal.
    unfold row_at. apply prefix_lookup_total; [done|].
    rewrite Forall_forall in Hrows. apply Hrows. apply list_elem_of_lookup. eauto. }
  split.
  - unfold snapshot. by rewrite Hobj, Hrow.
  - split.
    + apply prefix_length in Ho. lia.
    + rewrite Hobj. eapply Forall_impl; [done|]. cbn. intros l Hl.
      apply prefix_length in Hr. lia.
Qed.

(** Assigning attributes other than the grid of the scratch board. *)
Lemma scratch_write_obj h0 temp h tb f :
  scratch h0 temp h tb →
  o_board (f (obj_at h temp)) = o_board (obj_at h temp) →
  scratch h0 temp (mkHeap (rows h) (alter f temp (objs h)))
    (mkBoard (board tb)
       (o_en_passant_target (f (obj_at h temp)))
       (o_current_player (f (obj_at h temp)))
       (o_move_history (f (obj_at h temp)))).
Proof.
  intros ([Hr Ho] & Ht & Hb & Hnd & Hsnap) Hf.
  assert (Hobj : obj_at (mkHeap (rows h) (alter f temp (objs h))) temp
                 = f (obj_at h temp)).
  { unfold obj_at. cbn. apply list_lookup_total_alter_eq. lia. }
  split; [|split; [|split; [|split]]].
  - split; [done|]. cbn. apply prefix_alter_ge; [done|lia].
  - cbn. rewrite length_alter. done.
  - rewrite Hobj, Hf. done.
  - rewrite Hobj, Hf. done.
  - unfold snapshot. rewrite Hobj, Hf. f_equal. by rewrite <- Hsnap.
Qed.

Lemma heap_ops_sim h0 temp : ops_sim (scratch h0 temp) (Heap_ops temp) Board_ops.
Proof.
  split.
  - (* board_getitem *)
    intros row col h tb HR. pose proof HR as (_ & _ & _ & _ & Hsnap). subst tb.
    cbn. unfold Heap_getitem, Board_getitem, bind, gets, lift. cbn.
    rewrite getitem_fmap.
    by destruct (getitem (o_board (obj_at h temp)) row) as [l|e]; cbn.
  - (* board_setitem *)
    intros row col v h tb HR.
    pose proof HR as ([Hr Ho] & Ht & Hb & Hnd & Hsnap). subst tb.
    cbn. unfold Heap_setitem, Board_setitem, bind, gets, lift, write_row, modify. cbn.
    rewrite getitem_fmap.
    destruct (getitem (o_board (obj_at h temp)) row) as [l|e] eqn:Hg; cbn; [|done].
    destruct (setitem (row_at h l) col v) as [r'|e] eqn:Hset; cbn; [|done].
    apply getitem_Ok in Hg as (n & Hn & Hl).
    assert (Hlb : (length (rows h0) ≤ l < length (rows h))%nat).
    { rewrite Forall_forall in Hb. apply Hb, list_elem_of_lookup. eauto. }
    assert (Hset' : setitem (row_at h <$> o_board (obj_at h temp)) row r'
                    = Ok (<[n:=r']> (row_at h <$> o_board (obj_at h temp)))).
    { unfold setitem. rewrite length_fmap. by rewrite Hn. }
    rewrite Hset'. cbn. split; [done|].
    split; [|split; [|split; [|split]]].
    + split; [|done]. cbn. apply prefix_insert_ge; [done|lia].
    + done.
    + cbn. unfold obj_at in *. cbn. rewrite length_insert. done.
    + done.
    + unfold snapshot, set_board. cbn. f_equal.
      unfold obj_at, row_at. cbn.
      by apply fmap_lookup_insert_NoDup; [| |lia].
  - (* get_en_passant_target *)
    intros h tb HR. pose proof HR as (_ & _ & _ & _ & Hsnap). subst tb. done.
  - (* set_en_passant_target *)
    intros t h tb HR. cbn. unfold write_obj, modify. cbn. split; [done|].
    pose proof HR as (_ & _ & _ & _ & Hsnap). subst tb.
    by apply (scratch_write_obj h0 temp h _
      (λ o, mkObj (o_board o) t (o_current_player o) (o_move_history o))) in HR.
  - (* get_current_player *)
    intros h tb HR. pose proof HR as (_ & _ & _ & _ & Hsnap). subst tb. done.
  - (* set_current_player *)
    intros c h tb HR. cbn. unfold write_obj, modify. cbn. split; [done|].
    pose proof HR as (_ & _ & _ & _ & Hsnap). subst tb.
    by apply (scratch_write_obj h0 temp h _
      (λ o, mkObj (o_board o) (o_en_passant_target o) c (o_move_history o))) in HR.
  - (* move_history_append *)
    intros m h tb HR. cbn. unfold write_obj, modify. cbn. split; [done|].
    pose proof HR as (_ & _ & _ & _ & Hsnap). subst tb.
    by apply (scratch_write_obj h0 temp h _
      (λ o, mkObj (o_board o) (o_en_passant_target o) (o_current_player o)
                  (o_move_history o ++ [m]))) in HR.
Qed.

(** ** Helper lemmas: allocation *)

Lemma alloc_rows_spec contents : ∀ h,
  alloc_rows contents h =
    (Ok (seq (length (rows h)) (length contents)), mkHeap (rows h ++ contents) (objs h)).
Proof.
  induction contents as [|r rest IH]; intros h; cbn [alloc_rows].
  - unfold ret. rewrite app_nil_r. by destruct h.
  - unfold bind, alloc_row. rewrite IH. cbn.
    rewrite length_app, Nat.add_1_r, <- app_assoc. done.
Qed.

Lemma copy_rows_spec ls : ∀ h,
  Forall (λ l, (l < length (rows h))%nat) ls →
  copy_rows ls h =
    (Ok (seq (length (rows h)) (length ls)),
     mkHeap (rows h ++ (row_at h <$> ls)) (objs h)).
Proof.
  induction ls as [|l rest IH]; intros h Hls; cbn [copy_rows].
  - unfold ret. cbn. rewrite app_nil_r. by destruct h.
  - apply Forall_cons in Hls as [Hl Hrest].
    unfold bind, gets, alloc_row. cbn. rewrite IH; cbn.
    + rewrite length_app, Nat.add_1_r, <- app_assoc. cbn. do 4 f_equal.
      apply list_fmap_ext. intros i x Hx. unfold row_at. cbn.
      apply lookup_total_app_l.
      rewrite Forall_forall in Hrest. apply Hrest, list_elem_of_lookup. eauto.
    + eapply Forall_impl; [done|]. cbn. intros x Hx. rewrite length_app. lia.
Qed.

Lemma fmap_lookup_fresh {A} `{!Inhabited A} (rws cs : list A) :
  (λ l, (rws ++ cs) !!! l) <$> seq (length rws) (length cs) = cs.
Proof.
  apply list_eq. intros i. rewrite list_lookup_fmap.
  destruct (cs !! i) as [x|] eqn:Hx.
  - rewrite lookup_seq_lt by (by eapply lookup_lt_Some). cbn. f_equal.
    rewrite lookup_total_app_r by lia.
    replace (length rws + i - length rws)%nat with i by lia.
    by apply list_lookup_total_correct.
  - rewrite lookup_seq_ge; [done|]. by apply lookup_ge_None.
Qed.

Lemma Forall_seq_fresh (n0 n k : nat) :
  (n0 ≤ n)%nat → Forall (λ l, (n0 ≤ l < n + k)%nat) (seq n k).
Proof. intros Hn. apply Forall_seq. intros j Hj. lia. Qed.

Lemma set_initial_position_blank : set_initial_position blank = (Ok tt, reset).
Proof. vm_compute. reflexivity. Qed.

(** Running a simulated method from related states, given what the second
    run returns. *)
Lemma sim_run {S1 S2 A : Type} (R : S1 → S2 → Prop) (m1 : M S1 A) (m2 : M S2 A)
    s1 s2 r s2' :
  sim R m1 m2 → R s1 s2 → m2 s2 = (r, s2') →
  ∃ s1', m1 s1 = (r, s1') ∧ R s1' s2'.
Proof.
  intros Hsim HR Hm2. destruct (Hsim s1 s2 HR) as [Hres HR'].
  rewrite Hm2 in Hres, HR'. destruct (m1 s1) as [r1 s1'].
  cbn [fst snd] in Hres, HR'. subst r1. by exists s1'.
Qed.

(** On a new board whose grid is empty, [set_initial_position] returns
    normally and leaves the opening position. *)
Lemma set_initial_position_scratch h0 temp ha :
  scratch h0 temp ha blank →
  ∃ hb, set_initial_position (ops := Heap_ops temp) ha = (Ok tt, hb)
        ∧ scratch h0 temp hb reset.
Proof.
  intros Ha.
  exact (sim_run _ _ _ ha blank (Ok tt) reset
           (sim_set_initial_position _ _ _ (heap_ops_sim h0 temp))
           Ha set_initial_position_blank).
Qed.

Section NewObject.
(** The body of [reset] after the grid is built, with
    [set_initial_position] abstract. *)
Variable init : loc → M Heap unit.
Hypothesis init_scratch : ∀ h0 temp ha,
  scratch h0 temp ha blank →
  ∃ hb, init temp ha = (Ok tt, hb) ∧ scratch h0 temp hb reset.

Lemma new_object_spec h :
  let m := (grid <- alloc_rows (replicate (Z.to_nat ROWS)
                                  (replicate (Z.to_nat COLS) None)) ;;
            self <- alloc_obj (mkObj grid None WHITE []) ;;
            init self ;;
            write_obj self (λ o, mkObj (o_board o) None WHITE []) ;;
            ret self)%py in
  (m h).1 = Ok (length (objs h)) ∧ scratch h (length (objs h)) (m h).2 reset.
Proof.
  intros m. subst m.
  set (contents := replicate (Z.to_nat ROWS) (replicate (Z.to_nat COLS) None)).
  set (grid := seq (length (rows h)) (length contents)).
  set (temp := length (objs h)).
  set (ha := mkHeap (rows h ++ contents) (objs h ++ [mkObj grid None WHITE []])).
  assert (Hobj : obj_at ha temp = mkObj grid None WHITE []).
  { unfold obj_at, ha, temp. cbn [objs]. rewrite lookup_total_app_r by lia.
    by rewrite Nat.sub_diag. }
  assert (Ha : scratch h temp ha blank).
  { split; [|split; [|split; [|split]]].
    - split; cbn [rows objs ha]; by apply prefix_app_r.
    - cbn [rows objs ha]. rewrite length_app. cbn [length]. lia.
    - rewrite Hobj. cbn [o_board rows ha]. rewrite length_app.
      by apply Forall_seq_fresh.
    - rewrite Hobj. apply NoDup_seq.
    - unfold snapshot. rewrite Hobj. cbn [o_board o_en_passant_target
        o_current_player o_move_history]. unfold blank. f_equal.
      apply fmap_lookup_fresh. }
  destruct (init_scratch h temp ha Ha) as (hb & Hb & HR).
  rewrite (bind_ok _ _ h grid (mkHeap (rows h ++ contents) (objs h)))
    by apply alloc_rows_spec.
  rewrite (bind_ok _ _ _ temp ha) by reflexivity.
  rewrite (bind_ok _ _ ha tt hb Hb).
  unfold bind, write_obj, modify, ret. cbn [fst snd]. split; [done|].
  by apply (scratch_write_obj h temp hb reset
              (λ o, mkObj (o_board o) None WHITE [])) in HR.
Qed.
End NewObject.

(** [Board()] returns a new object that shares nothing with the heap it was
    built in, in the opening position. *)
Lemma new_Board_spec h :
  (new_Board h).1 = Ok (length (objs h))
  ∧ scratch h (length (objs h)) (new_Board h).2 reset.
Proof.
  exact (new_object_spec (λ self, set_initial_position (ops := Heap_ops self))
           (λ h0 temp ha, set_initial_position_scratch h0 temp ha) h).
Qed.

(** ** Helper lemmas: the scratch board of [get_legal_moves] *)

Lemma extends_rows h0 h (ls : list loc) :
  extends h0 h → Forall (λ l, (l < length (rows h0))%nat) ls →
  row_at h <$> ls = row_at h0 <$> ls.
Proof.
  intros [Hr _] Hls. apply list_eq. intros i. rewrite !list_lookup_fmap.
  destruct (ls !! i) as [l|] eqn:Hl; [|done]. cbn. f_equal.
  unfold row_at. apply prefix_lookup_total; [done|].
  rewrite Forall_forall in Hls. apply Hls, list_elem_of_lookup. eauto.
Qed.

(** After [temp_board.board = [row[:] for row in self.board]] the new board
    has the grid of [self], in rows of its own, and the attributes it had. *)
Lemma scratch_copy_rows h0 self temp h1 rb :
  allocated h0 self → scratch h0 temp h1 rb →
  let ls := o_board (obj_at h0 self) in
  let grid := seq (length (rows h1)) (length ls) in
  scratch h0 temp
    (mkHeap (rows h1 ++ (row_at h1 <$> ls))
       (alter (λ t, mkObj grid (o_en_passant_target t) (o_current_player t)
                          (o_move_history t)) temp (objs h1)))
    (set_board (map (λ row, row) (board (snapshot h0 self))) rb).
Proof.
  intros [Hself Hrows] (Hext & Ht & Hb & Hnd & Hsnap) ls grid. subst rb.
  pose proof Hext as [Hr Ho].
  set (f := λ t, mkObj grid (o_en_passant_target t) (o_current_player t)
                       (o_move_history t)).
  set (h3 := mkHeap (rows h1 ++ (row_at h1 <$> ls)) (alter f temp (objs h1))).
  assert (Hobj : obj_at h3 temp = f (obj_at h1 temp)).
  { unfold obj_at, h3. cbn [objs]. apply list_lookup_total_alter_eq. lia. }
  assert (Hlen : length (rows h3) = (length (rows h1) + length ls)%nat).
  { unfold h3. cbn [rows]. by rewrite length_app, length_fmap. }
  split; [|split; [|split; [|split]]].
  - split; unfold h3; cbn [rows objs].
    + by apply prefix_app_r.
    + apply prefix_alter_ge; [done|lia].
  - unfold h3. cbn [objs]. by rewrite length_alter.
  - rewrite Hobj, Hlen. unfold f. cbn [o_board].
    apply Forall_seq_fresh. by apply prefix_length.
  - rewrite Hobj. unfold f. cbn [o_board]. apply NoDup_seq.
  - unfold snapshot at 1. rewrite Hobj. unfold f at 1 2 3 4.
    cbn [o_board o_en_passant_target o_current_player o_move_history].
    unfold set_board, snapshot.
    cbn [board en_passant_target current_player move_history].
    f_equal. rewrite map_id. fold ls.
    rewrite <- (extends_rows h0 h1 ls Hext Hrows).
    unfold grid. rewrite <- (length_fmap (row_at h1) ls).
    unfold row_at at 1, h3. cbn [rows]. apply fmap_lookup_fresh.
Qed.

Lemma legal_loop_h_spec self piece row col moves : ∀ h,
  allocated h self →
  (legal_loop_h self piece row col moves h).1
    = legal_loop (snapshot h self) piece row col moves
  ∧ extends h (legal_loop_h self piece row col moves h).2.
Proof.
  induction moves as [|move rest IH]; intros h Hal.
  - split; [done|apply extends_refl].
  - cbn [legal_loop_h legal_loop].
    destruct (new_Board_spec h) as [Hnb1 Hnb2].
    destruct (new_Board h) as [rt h1] eqn:Hnb. cbn [fst snd] in Hnb1, Hnb2. subst rt.
    set (temp := length (objs h)) in *.
    rewrite (bind_ok _ _ h temp h1 Hnb).
    rewrite (bind_ok _ _ h1 (obj_at h1 self) h1) by reflexivity.
    pose proof Hnb2 as (Hext1 & _).
    destruct (extends_snapshot h h1 self Hext1 Hal) as [_ Hal1].
    assert (Hobj1 : obj_at h1 self = obj_at h self).
    { unfold obj_at. destruct Hext1 as [_ Ho], Hal as [Hs _].
      by apply prefix_lookup_total. }
    rewrite Hobj1.
    set (ls := o_board (obj_at h self)).
    set (grid := seq (length (rows h1)) (length ls)).
    rewrite (bind_ok _ _ h1 grid (mkHeap (rows h1 ++ (row_at h1 <$> ls)) (objs h1))).
    2:{ apply copy_rows_spec. destruct Hal1 as [_ Hl]. by rewrite Hobj1 in Hl. }
    pose proof (scratch_copy_rows h self temp h1 reset Hal Hnb2) as Hsc.
    cbv zeta in Hsc. fold ls in Hsc. fold grid in Hsc.
    set (h3 := mkHeap (rows h1 ++ (row_at h1 <$> ls)) _) in Hsc.
    rewrite (bind_ok _ _ _ tt h3) by reflexivity.
    change (set_board (map (λ row, row) (board (snapshot h self))) reset)
      with (temp_board (snapshot h self)) in Hsc.
    destruct (make_move (row, col) move (temp_board (snapshot h self)))
      as [r tb'] eqn:Hmv.
    destruct (sim_run _ _ _ h3 _ r tb'
                (sim_make_move _ _ _ (heap_ops_sim h temp) (row, col) move) Hsc Hmv)
      as (h4 & Hmv4 & Hsc4).
    pose proof Hsc4 as (Hext4 & _ & _ & _ & Hsnap4).
    destruct r as [[]|e].
    + rewrite (bind_ok _ _ h3 tt h4 Hmv4).
      rewrite (bind_ok _ _ h4 (is_in_check (snapshot h4 temp) (color piece)) h4)
        by reflexivity.
      destruct (extends_snapshot h h4 self Hext4 Hal) as [Hs4 Hal4].
      destruct (IH h4 Hal4) as [IH1 IH2]. rewrite Hs4 in IH1.
      rewrite Hsnap4. rewrite <- IH1.
      unfold bind, ret.
      destruct (legal_loop_h self piece row col rest h4) as [[legal|e] h5];
        cbn [fst snd] in *; (split; [done|by eapply extends_trans]).
    + rewrite (bind_raise _ _ h3 e h4 Hmv4). by split.
Qed.

(** [get_legal_moves] on the heap returns what [get_legal_moves] returns on
    the board read from the heap, and writes only to what it allocates. *)
Lemma get_legal_moves_h_spec h self row col :
  allocated h self →
  (get_legal_moves_h self row col h).1 = get_legal_moves (snapshot h self) row col
  ∧ extends h (get_legal_moves_h self row col h).2.
Proof.
  intros Hal. unfold get_legal_moves_h, get_legal_moves.
  rewrite (bind_ok _ _ h (get_piece (snapshot h self) row col) h) by reflexivity.
  destruct (get_piece (snapshot h self) row col) as [piece|].
  - rewrite (bind_ok _ _ h (Piece_get_legal_moves piece (snapshot h self) row col) h)
      by reflexivity.
    by apply legal_loop_h_spec.
  - split; [done|apply extends_refl].
Qed.

(** ** Helper lemmas: the grid stays 8x8 *)

Lemma Board_setitem_wf row col v b : wf_grid b → wf_grid (Board_setitem row col v b).2.
Proof.
  intros [Hlen Hrows]. unfold Board_setitem, bind, gets, lift, modify.
  destruct (getitem (board b) row) as [r|e] eqn:Hr; cbn [fst snd]; [|done].
  destruct (setitem r col v) as [r'|e] eqn:Hr'; cbn [fst snd]; [|done].
  destruct (setitem (board b) row r') as [g|e] eqn:Hg; cbn [fst snd]; [|done].
  apply getitem_Ok in Hr as (n & _ & Hn).
  unfold setitem in Hr', Hg.
  destruct (norm_index (length r) col) as [k|]; [|done].
  destruct (norm_index (length (board b)) row) as [m|]; [|done].
  injection Hr' as <-. injection Hg as <-.
  split; cbn [board set_board].
  - by rewrite length_insert.
  - apply Forall_insert; [done|]. rewrite length_insert.
    rewrite Forall_forall in Hrows. apply Hrows, list_elem_of_lookup. eauto.
Qed.

Lemma Board_getitem_reads row col b :
  Board_getitem row col b =
    (match getitem (board b) row with
     | Ok r => getitem r col
     | Raise e => Raise e
     end, b).
Proof.
  unfold Board_getitem, bind, gets, lift.
  by destruct (getitem (board b) row).
Qed.

Lemma wf_ops_sim : ops_sim wf_invariant Board_ops Board_ops.
Proof.
  split.
  - intros row col b1 b2 [-> Hwf].
    change (@board_getitem Board Board_ops) with Board_getitem.
    by rewrite Board_getitem_reads.
  - intros row col v b1 b2 [-> Hwf]. split; [done|]. split; [done|].
    by apply Board_setitem_wf.
  - by intros b1 b2 [-> Hwf].
  - by intros t b1 b2 [-> Hwf].
  - by intros b1 b2 [-> Hwf].
  - by intros c b1 b2 [-> Hwf].
  - by intros m b1 b2 [-> Hwf].
Qed.

(** Whatever the move, and whether it raises or not. *)
Lemma make_move_wf start end_ b : wf_grid b → wf_grid (make_move start end_ b).2.
Proof.
  intros Hwf.
  destruct (sim_make_move _ _ _ wf_ops_sim start end_ b b (conj eq_refl Hwf))
    as [_ [_ H]].
  exact H.
Qed.

Lemma play_wf moves : ∀ b, wf_grid b → wf_grid (play moves b).
Proof.
  induction moves as [|m moves IH]; intros b Hwf; [done|].
  cbn [play fold_left]. apply IH. by apply make_move_wf.
Qed.

(** ** Helper lemmas: what the queries read *)

Lemma is_in_check_layout b1 b2 c :
  same_layout b1 b2 → is_in_check b1 c = is_in_check b2 c.
Proof.
  destruct b1 as [g1 e1 p1 h1], b2 as [g2 e2 p2 h2].
  intros [Hg He]. cbn [board en_passant_target] in Hg, He. subst.
  reflexivity.
Qed.

Lemma make_move_layout start end_ :
  sim same_layout (make_move start end_) (make_move start end_).
Proof.
  apply sim_make_move_upto.
  - intros row col b1 b2 [Hg He].
    change (@board_getitem Board Board_ops) with Board_getitem.
    rewrite !Board_getitem_reads. cbn [fst snd]. by rewrite Hg.
  - intros row col v b1 b2 [Hg He]. cbn.
    unfold Board_setitem, bind, gets, lift, modify. rewrite Hg.
    destruct (getitem (board b2) row) as [r|e]; cbn; [|done].
    destruct (setitem r col v) as [r'|e]; cbn; [|done].
    by destruct (setitem (board b2) row r') as [g|e]; cbn.
  - intros b1 b2 [Hg He]. cbn. unfold gets. cbn. by rewrite He.
  - by intros t b1 b2 [Hg He].
  - by intros b1 b2 [Hg He].
Qed.

Lemma reset_en_passant_target : en_passant_target reset = None.
Proof. vm_compute. reflexivity. Qed.

(** With no en-passant target pending, simulating on the scratch board of
    [get_legal_moves] and simulating on the position itself agree. *)
Lemma legal_loop_without_target b piece row col moves :
  en_passant_target b = None →
  legal_loop b piece row col moves = legal_loop_spec b piece row col moves.
Proof.
  intros Hep.
  assert (Hl : same_layout (temp_board b) b).
  { split.
    - unfold temp_board, set_board. cbn [board]. apply map_id.
    - unfold temp_board, set_board. cbn [en_passant_target].
      by rewrite reset_en_passant_target. }
  induction moves as [|move rest IH]; [done|].
  cbn [legal_loop legal_loop_spec]. rewrite IH.
  destruct (make_move_layout (row, col) move (temp_board b) b Hl) as [Hres Hl'].
  destruct (make_move (row, col) move (temp_board b)) as [r1 t1].
  destruct (make_move (row, col) move b) as [r2 t2].
  cbn [fst snd] in Hres, Hl'. subst r2.
  destruct r1 as [[]|e]; [|done].
  by rewrite (is_in_check_layout t1 t2 (color piece) Hl').
Qed.

Lemma get_legal_moves_without_target b row col :
  en_passant_target b = None →
  get_legal_moves b row col = legal_moves_spec b row col.
Proof.
  intros Hep. unfold get_legal_moves, legal_moves_spec.
  destruct (get_piece b row col) as [piece|]; [|done].
  by apply legal_loop_without_target.
Qed.

(** ** Helper lemmas: when [get_legal_moves] returns *)

Lemma temp_board_grid b : board (temp_board b) = board b.
Proof. unfold temp_board, set_board. cbn [board]. apply map_id. Qed.

Lemma legal_loop_returns b piece row col moves :
  wf_grid b → get_piece b row col = Some piece →
  Forall (λ sq, is_valid_position sq.1 sq.2 = true) moves →
  ∃ legal_moves, legal_loop b piece row col moves = Ok legal_moves.
Proof.
  intros Hwf Hp Hmoves.
  assert (Hwf' : wf_grid (temp_board b)).
  { unfold wf_grid. by rewrite temp_board_grid. }
  assert (Hp' : get_piece (temp_board b) row col = Some piece).
  { unfold get_piece in *. by rewrite temp_board_grid. }
  pose proof (get_piece_Some_valid _ _ _ _ Hp) as Hv.
  induction Hmoves as [|move rest Hmove _ IH]; [by eexists|].
  destruct IH as [legal IH]. cbn [legal_loop].
  rewrite (make_move_ok (temp_board b) (row, col) move piece Hwf' Hv Hmove Hp').
  rewrite IH. by eexists.
Qed.

(** On an 8x8 grid [get_legal_moves] returns a list for every piece but a
    pawn on its farthest rank. *)
Lemma get_legal_moves_returns b row col piece :
  wf_grid b → get_piece b row col = Some piece →
  (type piece = PAWN → row ≠ farthest_row (color piece)) →
  ∃ legal_moves, get_legal_moves b row col = Ok legal_moves.
Proof.
  intros Hwf Hp Hfar. unfold get_legal_moves. rewrite Hp.
  apply legal_loop_returns; [done..|].
  apply Forall_forall. intros sq Hin. apply list_elem_of_In in Hin.
  by eapply Piece_get_legal_moves_valid.
Qed.

(** For a Black pawn on row 7 the forward square is row 8 and the simulated
    [make_move] raises; for a White pawn on row 0 it is row -1, which the
    subscript takes for the last row. *)
Lemma get_legal_moves_pawn_on_farthest_rank :
  get_legal_moves (place [((7, 0), mkPiece BLACK PAWN)] blank) 7 0 = Raise IndexError
  ∧ get_legal_moves (place [((0, 0), mkPiece WHITE PAWN)] blank) 0 0 = Ok [(-1, 0)].
Proof. vm_compute. done. Qed.

(** * Properties stated by the specification *)

(** C8. A move whose origin square is empty raises ([piece.type] on [None])
    before anything is written: [make_move] fails with [AttributeError] and
    the board it was called on is as before, cell by cell and attribute by
    attribute. *)
Theorem C8_make_move_empty_origin (b : Board) (start end_ : Square) :
  wf_grid b →
  is_valid_position start.1 start.2 = true →
  get_piece b start.1 start.2 = None →
  make_move start end_ b = (Raise AttributeError, b).
Proof.
  destruct start as [start_row start_col], end_ as [end_row end_col].
  cbn [fst snd]. intros Hwf Hs Hp. unfold make_move.
  erewrite bind_ok by (by apply get_piece_getitem).
  rewrite Hp. reflexivity.
Qed.

Lemma C8_make_move_empty_origin_witness :
  make_move (4, 4) (3, 4) reset = (Raise AttributeError, reset).
Proof.
  apply (C8_make_move_empty_origin reset (4, 4) (3, 4)).
  - apply reset_wf.
  - reflexivity.
  - reflexivity.
Defined.

(** C2. When a pawn moves onto the current en-passant target, [make_move]
    empties the square in the origin's row and the destination's column,
    where the captured pawn stands; the target square itself receives the
    capturing pawn, and no other square than these and the origin changes. *)
Theorem C2_en_passant_removes_adjacent_pawn
    (b : Board) (start_row start_col end_row end_col : Z) (piece : Piece) :
  wf_grid b →
  is_valid_position start_row start_col = true →
  is_valid_position end_row end_col = true →
  get_piece b start_row start_col = Some piece →
  type piece = PAWN →
  en_passant_target b = Some (end_row, end_col) →
  start_row ≠ end_row →
  ∃ b', make_move (start_row, start_col) (end_row, end_col) b = (Ok tt, b')
    ∧ get_piece b' start_row end_col = None
    ∧ get_piece b' end_row end_col =
        Some (if (end_row =? 0) || (end_row =? 7)
              then mkPiece (color piece) QUEEN else piece)
    ∧ ∀ r c, (r, c) ≠ (start_row, end_col) → (r, c) ≠ (start_row, start_col) →
             (r, c) ≠ (end_row, end_col) → get_piece b' r c = get_piece b r c.
Proof.
  intros Hwf Hs He Hp Hty Hep Hrow.
  exists (after_move b (start_row, start_col) (end_row, end_col) piece).
  split; [by apply make_move_ok|].
  assert (Hpawn : is_pawn piece = true) by (unfold is_pawn; by rewrite bool_decide_eq_true).
  assert (Htg : is_target (end_row, end_col) (en_passant_target b) = true).
  { rewrite Hep. unfold is_target, square_eqb. cbn. lia. }
  assert (Hg : ∀ r c, get_piece (after_move b (start_row, start_col) (end_row, end_col) piece) r c
                 = get_piece (moved_grid b (start_row, start_col) (end_row, end_col) piece) r c)
    by done.
  repeat split.
  - rewrite Hg, get_piece_moved_grid by done.
    unfold promotes. rewrite Hpawn, Htg. cbn [fst snd andb].
    repeat case_decide; naive_solver.
  - rewrite Hg, get_piece_moved_grid by done.
    unfold promotes. rewrite Hpawn, Htg. cbn [fst snd andb].
    destruct ((end_row =? 0) || (end_row =? 7)); repeat case_decide; naive_solver.
  - intros r c H1 H2 H3.
    rewrite Hg, get_piece_moved_grid by done. cbn [fst snd].
    repeat case_decide; naive_solver.
Qed.

Lemma C2_en_passant_removes_adjacent_pawn_witness :
  ∃ b', make_move (4, 3) (5, 4) en_passant_position = (Ok tt, b')
    ∧ get_piece b' 4 4 = None
    ∧ get_piece b' 5 4 = Some (mkPiece BLACK PAWN)
    ∧ ∀ r c, (r, c) ≠ (4, 4) → (r, c) ≠ (4, 3) → (r, c) ≠ (5, 4) →
             get_piece b' r c = get_piece en_passant_position r c.
Proof.
  apply (C2_en_passant_removes_adjacent_pawn en_passant_position 4 3 5 4
           (mkPiece BLACK PAWN)).
  - apply play_wf, reset_wf.
  - reflexivity.
  - reflexivity.
  - reflexivity.
  - reflexivity.
  - reflexivity.
  - lia.
Defined.

(** C3. After a move the en-passant target is the square jumped over when
    the mover was a pawn that changed row by exactly two (the row strictly
    between origin and destination, in the destination's column, whichever
    way the pawn goes), and [None] after every other move. *)
Theorem C3_en_passant_target_after_move
    (b : Board) (start_row start_col end_row end_col : Z) (piece : Piece) :
  wf_grid b →
  is_valid_position start_row start_col = true →
  is_valid_position end_row end_col = true →
  get_piece b start_row start_col = Some piece →
  ∃ b', make_move (start_row, start_col) (end_row, end_col) b = (Ok tt, b')
    ∧ (type piece = PAWN ∧ Z.abs (start_row - end_row) = 2 →
       ∃ mid, en_passant_target b' = Some (mid, end_col)
              ∧ Z.min start_row end_row < mid < Z.max start_row end_row)
    ∧ (¬ (type piece = PAWN ∧ Z.abs (start_row - end_row) = 2) →
       en_passant_target b' = None).
Proof.
  intros Hwf Hs He Hp.
  exists (after_move b (start_row, start_col) (end_row, end_col) piece).
  split; [by apply make_move_ok|].
  unfold after_move, double_step, is_pawn. cbn [fst snd en_passant_target].
  split.
  - intros [Hty Habs].
    rewrite bool_decide_eq_true_2 by done.
    replace (Z.abs (start_row - end_row) =? 2) with true by lia.
    cbn [andb]. eexists. split; [reflexivity|].
    assert (start_row - end_row = 2 ∨ start_row - end_row = -2) as [Hd|Hd] by lia;
      rewrite Hd.
    + change (2 `div` 2) with 1. lia.
    + change ((-2) `div` 2) with (-1). lia.
  - intros Hno.
    destruct (bool_decide (type piece = PAWN)) eqn:Hty; [|done].
    apply bool_decide_eq_true in Hty.
    replace (Z.abs (start_row - end_row) =? 2) with false; [done|].
    symmetry. apply Z.eqb_neq. tauto.
Qed.

Lemma C3_en_passant_target_after_move_witness :
  ∃ b', make_move (6, 4) (4, 4) reset = (Ok tt, b')
    ∧ (PAWN = PAWN ∧ Z.abs (6 - 4) = 2 →
       ∃ mid, en_passant_target b' = Some (mid, 4)
              ∧ Z.min 6 4 < mid < Z.max 6 4)
    ∧ (¬ (PAWN = PAWN ∧ Z.abs (6 - 4) = 2) → en_passant_target b' = None).
Proof.
  apply (C3_en_passant_target_after_move reset 6 4 4 4 (mkPiece WHITE PAWN)).
  - apply reset_wf.
  - reflexivity.
  - reflexivity.
  - reflexivity.
Defined.

(** C4, as the code has it. After a move to another square, with a pawn
    mover going the way its color advances, the destination holds a Queen of
    the mover's color exactly when the mover was a pawn arriving on its
    farthest rank (row 0 for White, row 7 for Black) or was itself a queen;
    in every other case it holds the mover unchanged.  The generators return
    squares only, so the promotion is [make_move]'s. *)
Theorem C4_queen_at_destination
    (b : Board) (start_row start_col end_row end_col : Z) (piece : Piece) :
  wf_grid b →
  is_valid_position start_row start_col = true →
  is_valid_position end_row end_col = true →
  (start_row, start_col) ≠ (end_row, end_col) →
  get_piece b start_row start_col = Some piece →
  (type piece = PAWN → advances piece start_row end_row) →
  ∃ b' q, make_move (start_row, start_col) (end_row, end_col) b = (Ok tt, b')
    ∧ get_piece b' end_row end_col = Some q
    ∧ (q = mkPiece (color piece) QUEEN
       ↔ type piece = QUEEN
         ∨ (type piece = PAWN ∧ end_row = farthest_row (color piece)))
    ∧ (q ≠ mkPiece (color piece) QUEEN → q = piece).
Proof.
  intros Hwf Hs He Hne Hp Hadv.
  exists (after_move b (start_row, start_col) (end_row, end_col) piece).
  assert (Hg : get_piece (after_move b (start_row, start_col) (end_row, end_col) piece)
                 end_row end_col
               = if promotes piece end_row
                 then Some (mkPiece (color piece) QUEEN) else Some piece).
  { change (get_piece (after_move b (start_row, start_col) (end_row, end_col) piece)
              end_row end_col)
      with (get_piece (moved_grid b (start_row, start_col) (end_row, end_col) piece)
              end_row end_col).
    rewrite get_piece_moved_grid by done. cbn [fst snd].
    destruct (promotes piece end_row); repeat case_decide; naive_solver. }
  pose proof (make_move_ok b (start_row, start_col) (end_row, end_col) piece
                Hwf Hs He Hp) as Hmv.
  apply is_valid_position_spec in Hs, He.
  destruct piece as [c t]. cbn [color type] in *.
  unfold promotes, is_pawn in Hg. cbn [type color] in Hg.
  destruct (decide (t = PAWN)) as [->|Hnp].
  - specialize (Hadv eq_refl). unfold advances in Hadv. cbn [color] in Hadv.
    rewrite bool_decide_eq_true_2 in Hg by done. cbn [andb] in Hg.
    destruct ((end_row =? 0) || (end_row =? 7)) eqn:Hrow.
    + exists (mkPiece c QUEEN).
      split; [done|]. split; [done|]. split; [|done].
      split; [|done]. intros _. right. split; [done|].
      destruct c; cbn; lia.
    + exists (mkPiece c PAWN).
      split; [done|]. split; [done|]. split; [|done].
      split; [done|]. intros [?|[_ Hf]]; [done|].
      destruct c; cbn in Hf; lia.
  - rewrite bool_decide_eq_false_2 in Hg by done. cbn [andb] in Hg.
    exists (mkPiece c t).
    split; [done|]. split; [done|]. split; [|done].
    split; [intros [= ->]; by left|].
    intros [->|[? _]]; done.
Qed.

Lemma C4_queen_at_destination_witness :
  ∃ b' q, make_move (1, 0) (0, 0) promotion_position = (Ok tt, b')
    ∧ get_piece b' 0 0 = Some q
    ∧ (q = mkPiece WHITE QUEEN
       ↔ PAWN = QUEEN ∨ (PAWN = PAWN ∧ 0 = farthest_row WHITE))
    ∧ (q ≠ mkPiece WHITE QUEEN → q = mkPiece WHITE PAWN).
Proof.
  apply (C4_queen_at_destination promotion_position 1 0 0 0 (mkPiece WHITE PAWN)).
  - split; [reflexivity|]. vm_compute. repeat constructor.
  - reflexivity.
  - reflexivity.
  - discriminate.
  - reflexivity.
  - intros _. unfold advances. cbn. lia.
Defined.

(** C4 as stated fails: after 1. e4 e5 the White queen goes from (7,3) to
    (3,7); the destination then holds a White Queen although the mover was
    no pawn. *)
Lemma C4_queen_move_counterexample :
  ¬ queen_iff_pawn_promoted after_e4_e5 (7, 3) (3, 7).
Proof.
  intros H.
  specialize (H (mkPiece WHITE QUEEN) (make_move (7, 3) (3, 7) after_e4_e5).2
                eq_refl eq_refl).
  destruct H as [H _]. specialize (H eq_refl). destruct H as [H _]. discriminate H.
Qed.

(** C10. Every destination the generators return for a rook, knight,
    bishop, queen or king lies on the board, and so does every destination
    of a pawn that does not stand on its farthest rank; a pawn that does
    stand there gets the square one row off the board, since the forward
    step is not bounds-checked. *)
Theorem C10_pseudo_legal_in_bounds (b : Board) (row col : Z) (piece : Piece) :
  get_piece b row col = Some piece →
  ((type piece = PAWN → row ≠ farthest_row (color piece)) →
   ∀ sq, sq ∈ Piece_get_legal_moves piece b row col →
         is_valid_position sq.1 sq.2 = true)
  ∧ (type piece = PAWN → row = farthest_row (color piece) →
     ∃ sq, sq ∈ Piece_get_legal_moves piece b row col
           ∧ is_valid_position sq.1 sq.2 = false).
Proof.
  intros Hp. split.
  - intros Hfar sq Hin. apply list_elem_of_In in Hin.
    by eapply Piece_get_legal_moves_valid.
  - intros Hty Hfar.
    pose proof (get_piece_Some_valid _ _ _ _ Hp) as Hv.
    apply is_valid_position_spec in Hv.
    unfold Piece_get_legal_moves. rewrite Hty.
    set (direction := match color piece with WHITE => -1 | BLACK => 1 end).
    assert (Hout : is_valid_position (row + direction) col = false).
    { apply not_true_is_false. rewrite is_valid_position_spec.
      subst direction. unfold farthest_row in Hfar. destruct (color piece); lia. }
    exists (row + direction, col). split; [|done].
    apply list_elem_of_In, (in_pawn_moves _ _ _ _ _ Hp). left. split; [done|].
    unfold get_piece. fold direction. by rewrite Hout.
Qed.

Lemma C10_pseudo_legal_in_bounds_witness :
  ((type (mkPiece WHITE PAWN) = PAWN → 6 ≠ farthest_row WHITE) →
   ∀ sq, sq ∈ Piece_get_legal_moves (mkPiece WHITE PAWN) reset 6 4 →
         is_valid_position sq.1 sq.2 = true)
  ∧ (type (mkPiece WHITE PAWN) = PAWN → 6 = farthest_row WHITE →
     ∃ sq, sq ∈ Piece_get_legal_moves (mkPiece WHITE PAWN) reset 6 4
           ∧ is_valid_position sq.1 sq.2 = false).
Proof.
  apply (C10_pseudo_legal_in_bounds reset 6 4 (mkPiece WHITE PAWN)).
  reflexivity.
Defined.

(** C6. With no king of the queried color on the board [is_in_check]
    returns [False] (a normal result: the function is total).  With one,
    [find_king] returns a square holding that king, and [is_in_check] is
    [True] exactly when that square is among the pseudo-legal moves of some
    piece of the other color. *)
Theorem C6_is_in_check (b : Board) (c : Color) :
  ((∀ row col, get_piece b row col ≠ Some (mkPiece c KING)) →
   is_in_check b c = false)
  ∧ ((∃ row col, get_piece b row col = Some (mkPiece c KING)) →
     ∃ kr kc, find_king b c = Some (kr, kc))
  ∧ (∀ kr kc, find_king b c = Some (kr, kc) →
       get_piece b kr kc = Some (mkPiece c KING)
       ∧ (is_in_check b c = true ↔
          ∃ r c0 piece, get_piece b r c0 = Some piece
            ∧ color piece = other c
            ∧ (kr, kc) ∈ Piece_get_legal_moves piece b r c0)).
Proof.
  split; [|split].
  - intros Hno. apply find_king_None in Hno. unfold is_in_check. by rewrite Hno.
  - intros (row & col & Hk).
    destruct (find_king b c) as [[kr kc]|] eqn:Hf; [by eauto|].
    rewrite find_king_None in Hf. by apply Hf in Hk.
  - intros kr kc Hf. split; [by apply find_king_Some|].
    unfold is_in_check. rewrite Hf.
    replace (match c with WHITE => BLACK | BLACK => WHITE end) with (other c) by done.
    rewrite is_square_attacked_spec.
    split; intros (r & c0 & piece & Hp & Hc & Hin); exists r, c0, piece;
      (split; [done|split; [done|by apply list_elem_of_In]]).
Qed.

Lemma C6_is_in_check_witness : is_in_check blank WHITE = false.
Proof.
  apply (C6_is_in_check blank WHITE).
  intros row col. unfold get_piece.
  destruct (is_valid_position row col) eqn:Hv; [|done].
  apply is_valid_position_spec in Hv.
  assert (Hr : ∃ i, row = Z.of_nat i ∧ (i < 8)%nat) by (exists (Z.to_nat row); lia).
  assert (Hc : ∃ j, col = Z.of_nat j ∧ (j < 8)%nat) by (exists (Z.to_nat col); lia).
  destruct Hr as (i & -> & Hi), Hc as (j & -> & Hj). rewrite !Nat2Z.id.
  do 8 (destruct i as [|i]; [do 8 (destruct j as [|j]; [done|]); lia|]). lia.
Defined.

(** C5. [is_checkmate] returns [True] exactly when the color is in check
    and [get_legal_moves] returns the empty list for every square holding
    one of its pieces; [is_stalemate] returns [True] exactly when the color
    is not in check and the same holds; they never both return [True]. *)
Theorem C5_checkmate_stalemate (b : Board) (c : Color) :
  (is_checkmate b c = Ok true ↔
     is_in_check b c = true
     ∧ ∀ row col piece, get_piece b row col = Some piece → color piece = c →
         get_legal_moves b row col = Ok [])
  ∧ (is_stalemate b c = Ok true ↔
     is_in_check b c = false
     ∧ ∀ row col piece, get_piece b row col = Some piece → color piece = c →
         get_legal_moves b row col = Ok [])
  ∧ ¬ (is_checkmate b c = Ok true ∧ is_stalemate b c = Ok true).
Proof.
  unfold is_checkmate, is_stalemate.
  destruct (is_in_check b c); cbn [negb]; rewrite no_legal_move_squares.
  - split; [|split]; [naive_solver|split; [done|by intros []]|by intros [_ ?]].
  - split; [|split]; [split; [done|by intros []]|naive_solver|by intros [? _]].
Qed.



Lemma C5_checkmate_stalemate_witness :
  is_in_check fools_mate WHITE = true
  ∧ ∀ row col piece, get_piece fools_mate row col = Some piece →
      color piece = WHITE → get_legal_moves fools_mate row col = Ok [].
Proof.
  apply (C5_checkmate_stalemate fools_mate WHITE). vm_compute. reflexivity.
Defined.

(** C9. [get_legal_moves] leaves the board it is called on as it was: read
    through the heap after the call, its grid, its en-passant target, its
    side to move and its move history are those before the call, whether
    the call returns or raises.  The moves are simulated on boards whose
    rows are allocated by the call; the value returned is that of
    [get_legal_moves] on the board by value. *)
Theorem C9_get_legal_moves_leaves_board (h : Heap) (self : loc) (row col : Z) :
  allocated h self →
  snapshot (get_legal_moves_h self row col h).2 self = snapshot h self
  ∧ extends h (get_legal_moves_h self row col h).2
  ∧ (get_legal_moves_h self row col h).1 = get_legal_moves (snapshot h self) row col.
Proof.
  intros Hal.
  destruct (get_legal_moves_h_spec h self row col Hal) as [Hres Hext].
  destruct (extends_snapshot h _ self Hext Hal) as [Hsnap _].
  done.
Qed.

Lemma C9_get_legal_moves_leaves_board_witness :
  snapshot (get_legal_moves_h 0%nat 6 4 opening_heap).2 0%nat = snapshot opening_heap 0%nat
  ∧ extends opening_heap (get_legal_moves_h 0%nat 6 4 opening_heap).2
  ∧ (get_legal_moves_h 0%nat 6 4 opening_heap).1
    = get_legal_moves (snapshot opening_heap 0%nat) 6 4.
Proof.
  apply (C9_get_legal_moves_leaves_board opening_heap 0%nat 6 4).
  split.
  - vm_compute. lia.
  - vm_compute. repeat constructor.
Defined.

(** C1. The scratch board of [get_legal_moves] is a reset board with the
    grid copied: its en-passant target is [None].  After 1. e4 a6 2. e5 a5
    3. Ke2 a4 4. Ke3 h6 5. Ke4 d5+ (a game [handle_click] accepts) the White
    king on (4,4) is in check from the pawn that has just jumped to (3,3).
    The capture en passant on (2,3) by the White pawn on (3,4) leaves the
    captured pawn standing in the simulation, so it is discarded; simulated
    on a copy that keeps the en-passant target it removes the pawn, ends the
    check and is kept. *)
Theorem C1_en_passant_target_lost_in_simulation :
  legal_game en_passant_check_game reset = true
  ∧ en_passant_target en_passant_check_position = Some (2, 3)
  ∧ en_passant_target (temp_board en_passant_check_position) = None
  ∧ Piece_get_legal_moves (mkPiece WHITE PAWN) en_passant_check_position 3 4
      = [(2, 4); (2, 3)]
  ∧ get_legal_moves en_passant_check_position 3 4 = Ok []
  ∧ legal_moves_spec en_passant_check_position 3 4 = Ok [(2, 3)].
Proof. vm_compute. done. Qed.

(** * Further properties of the code *)

(** ** Helper lemmas: one run *)

Section HoareLemmas.
Context {S : Type}.

Lemma hoare_bind {A B} (P : S → Prop) (P' : A → S → Prop)
    (m : M S A) (k : A → M S B) (Q : result B → S → Prop) :
  hoare P m (λ r s, match r with Ok a => P' a s | Raise e => Q (Raise e) s end) →
  (∀ a, hoare (P' a) (k a) Q) →
  hoare P (bind m k) Q.
Proof.
  intros Hm Hk s Hs. specialize (Hm s Hs). unfold bind.
  destruct (m s) as [[a|e] s']; cbn [fst snd] in *; [by apply Hk|done].
Qed.

Lemma hoare_ret {A} (P : S → Prop) (a : A) (Q : result A → S → Prop) :
  (∀ s, P s → Q (Ok a) s) → hoare P (ret a) Q.
Proof. intros H s Hs. by apply H. Qed.

Lemma hoare_raise {A} (P : S → Prop) e (Q : result A → S → Prop) :
  (∀ s, P s → Q (Raise e) s) → hoare P (raise e) Q.
Proof. intros H s Hs. by apply H. Qed.

Lemma hoare_when (P : S → Prop) c (m : M S unit) (Q : result unit → S → Prop) :
  hoare P m Q → (∀ s, P s → Q (Ok tt) s) → hoare P (when c m) Q.
Proof. intros Hm Hr. destruct c; [done|by apply hoare_ret]. Qed.
End HoareLemmas.

(** [self.board[row][col] = v] leaves the other attributes alone, whether it
    raises or not. *)
Lemma Board_setitem_attrs row col v b :
  en_passant_target (Board_setitem row col v b).2 = en_passant_target b
  ∧ current_player (Board_setitem row col v b).2 = current_player b
  ∧ move_history (Board_setitem row col v b).2 = move_history b.
Proof.
  unfold Board_setitem, bind, gets, lift, modify.
  destruct (getitem (board b) row) as [r|e]; cbn [fst snd]; [|done].
  destruct (setitem r col v) as [r'|e]; cbn [fst snd]; [|done].
  by destruct (setitem (board b) row r') as [g|e].
Qed.

(** ** [make_move]: side to move and history *)

(** X1. [make_move] passes the turn and records the move exactly when it
    returns: then the side to move is the other color and the history is
    the old one followed by this move; when it raises, side to move and
    history are as before. *)
Theorem make_move_turn_and_history (start end_ : Square) (b : Board) :
  match (make_move start end_ b).1 with
  | Ok _ =>
      current_player (make_move start end_ b).2 = other (current_player b)
      ∧ move_history (make_move start end_ b).2 = move_history b ++ [(start, end_)]
  | Raise _ =>
      current_player (make_move start end_ b).2 = current_player b
      ∧ move_history (make_move start end_ b).2 = move_history b
  end.
Proof.
  set (P := λ s : Board, current_player s = current_player b
                         ∧ move_history s = move_history b).
  set (Q := λ (r : result unit) (s : Board),
         match r with
         | Ok _ => current_player s = other (current_player b)
                   ∧ move_history s = move_history b ++ [(start, end_)]
         | Raise _ => P s
         end).
  assert (Hset : ∀ row col v, hoare P (board_setitem row col v)
                   (λ r s, match r with Ok _ => P s | Raise e => Q (Raise e) s end)).
  { intros row col v s [Hp Hh].
    change (@board_setitem Board Board_ops) with Board_setitem.
    destruct (Board_setitem_attrs row col v s) as (_ & Hp' & Hh').
    assert (P (Board_setitem row col v s).2) by (split; congruence).
    by destruct (Board_setitem row col v s).1. }
  assert (Hwhen : ∀ c row col v, hoare P (when c (board_setitem row col v))
                   (λ r s, match r with Ok _ => P s | Raise e => Q (Raise e) s end)).
  { intros c row col v. apply hoare_when; [apply Hset|done]. }
  assert (H : hoare P (make_move start end_) Q).
  { destruct start as [start_row start_col], end_ as [end_row end_col].
    unfold make_move.
    apply (hoare_bind _ (λ _, P)).
    { intros s Hs. change (@board_getitem Board Board_ops) with Board_getitem.
      rewrite Board_getitem_reads. cbn [fst snd].
      by destruct (match getitem (board s) start_row with
                   | Ok r => getitem r start_col
                   | Raise e => Raise e
                   end). }
    intros cell. apply (hoare_bind _ (λ _, P)).
    { destruct cell; [by apply hoare_ret|by apply hoare_raise]. }
    intros piece. apply (hoare_bind _ (λ _, P)); [by intros s Hs|].
    intros target. apply (hoare_bind _ (λ _, P)); [apply Hwhen|].
    intros _. apply (hoare_bind _ (λ _, P)); [apply Hset|].
    intros _. apply (hoare_bind _ (λ _, P)); [apply Hset|].
    intros _. apply (hoare_bind _ (λ _, P)); [apply Hwhen|].
    intros _. apply (hoare_bind _ (λ _, P)); [by intros s Hs|].
    intros _. apply (hoare_bind _ (λ _, P)).
    { apply hoare_when; [by intros s Hs|done]. }
    intros _. intros s [Hp Hh]. cbn. rewrite Hp, Hh. by destruct (current_player b). }
  exact (H b (conj eq_refl eq_refl)).
Qed.

Lemma is_target_Some sq target : is_target sq target = true ↔ target = Some sq.
Proof.
  unfold is_target. destruct target as [t|]; [|done].
  rewrite square_eqb_eq. naive_solver.
Qed.

(** X2. Apart from the capture en passant, a move changes two squares only:
    the origin, which it leaves empty, and the destination; every other
    square keeps what it held. *)
Theorem make_move_other_squares
    (b : Board) (start_row start_col end_row end_col : Z) (piece : Piece) :
  wf_grid b →
  is_valid_position start_row start_col = true →
  is_valid_position end_row end_col = true →
  get_piece b start_row start_col = Some piece →
  ¬ (type piece = PAWN ∧ en_passant_target b = Some (end_row, end_col)) →
  ∃ b', make_move (start_row, start_col) (end_row, end_col) b = (Ok tt, b')
    ∧ ((start_row, start_col) ≠ (end_row, end_col) →
       get_piece b' start_row start_col = None)
    ∧ ∀ r c, (r, c) ≠ (start_row, start_col) → (r, c) ≠ (end_row, end_col) →
             get_piece b' r c = get_piece b r c.
Proof.
  intros Hwf Hs He Hp Hnep.
  exists (after_move b (start_row, start_col) (end_row, end_col) piece).
  split; [by apply make_move_ok|].
  assert (Hcap : (is_pawn piece && is_target (end_row, end_col) (en_passant_target b))
                 = false).
  { apply not_true_is_false. rewrite andb_true_iff, is_target_Some.
    unfold is_pawn. rewrite bool_decide_eq_true. done. }
  assert (Hg : ∀ r c,
    get_piece (after_move b (start_row, start_col) (end_row, end_col) piece) r c
    = get_piece (moved_grid b (start_row, start_col) (end_row, end_col) piece) r c)
    by done.
  split.
  - intros Hne. rewrite Hg, get_piece_moved_grid by done. cbn [fst snd].
    rewrite Hcap. repeat case_decide; naive_solver.
  - intros r c H1 H2. rewrite Hg, get_piece_moved_grid by done. cbn [fst snd].
    rewrite Hcap. repeat case_decide; naive_solver.
Qed.

Lemma make_move_other_squares_witness :
  ∃ b', make_move (7, 1) (5, 2) reset = (Ok tt, b')
    ∧ ((7, 1) ≠ (5, 2) → get_piece b' 7 1 = None)
    ∧ ∀ r c, (r, c) ≠ (7, 1) → (r, c) ≠ (5, 2) →
             get_piece b' r c = get_piece reset r c.
Proof.
  apply (make_move_other_squares reset 7 1 5 2 (mkPiece WHITE KNIGHT)).
  - apply reset_wf.
  - reflexivity.
  - reflexivity.
  - reflexivity.
  - intros [Hty _]. discriminate Hty.
Defined.

(** ** [make_move]: the shape of the grid *)

(** X3. Whatever the two squares, and whether it returns or raises,
    [make_move] leaves a grid of 8 rows of 8 cells as it found it. *)
Theorem make_move_keeps_grid_shape (start end_ : Square) (b : Board) :
  wf_grid b → wf_grid (make_move start end_ b).2.
Proof. apply make_move_wf. Qed.

Lemma make_move_keeps_grid_shape_witness :
  wf_grid (make_move (6, 4) (4, 4) reset).2.
Proof. apply (make_move_keeps_grid_shape (6, 4) (4, 4) reset). apply reset_wf. Defined.

(** ** [make_move]: a destination off the grid *)

Lemma norm_index_off len i :
  i < - Z.of_nat len ∨ Z.of_nat len ≤ i → norm_index len i = None.
Proof.
  intros Hi. unfold norm_index.
  replace ((0 <=? i) && (i <? Z.of_nat len)) with false by lia.
  by replace ((i <? 0) && (- Z.of_nat len <=? i)) with false by lia.
Qed.

Lemma Board_setitem_off_grid row col v b :
  wf_grid b →
  (row < -8 ∨ 8 ≤ row) ∨ (col < -8 ∨ 8 ≤ col) →
  Board_setitem row col v b = (Raise IndexError, b).
Proof.
  intros [Hlen Hrows] Hoff. unfold Board_setitem, bind, gets, lift.
  destruct (getitem (board b) row) as [r|e] eqn:Hr.
  - apply getitem_Ok in Hr as (n & Hn & Hr).
    assert (Hlr : length r = 8%nat).
    { rewrite Forall_forall in Hrows. apply Hrows, list_elem_of_lookup. eauto. }
    destruct Hoff as [Hoff|Hoff].
    + rewrite norm_index_off in Hn by lia. done.
    + unfold setitem. rewrite norm_index_off by lia. done.
  - unfold getitem in Hr.
    destruct (norm_index (length (board b)) row) as [n|] eqn:Hn.
    + destruct (board b !! n); [done|]. by injection Hr as <-.
    + by injection Hr as <-.
Qed.

(** X4. A destination beyond the subscripts Python accepts (a row or a
    column below -8 or above 7) makes [make_move] raise [IndexError] with
    the board untouched, for any piece but a pawn whose en-passant target is
    that very square. *)
Theorem make_move_destination_off_grid
    (b : Board) (start_row start_col end_row end_col : Z) (piece : Piece) :
  wf_grid b →
  is_valid_position start_row start_col = true →
  get_piece b start_row start_col = Some piece →
  (end_row < -8 ∨ 8 ≤ end_row) ∨ (end_col < -8 ∨ 8 ≤ end_col) →
  ¬ (type piece = PAWN ∧ en_passant_target b = Some (end_row, end_col)) →
  make_move (start_row, start_col) (end_row, end_col) b = (Raise IndexError, b).
Proof.
  intros Hwf Hs Hp Hoff Hnep.
  assert (Hcap : (is_pawn piece && is_target (end_row, end_col) (en_passant_target b))
                 = false).
  { apply not_true_is_false. rewrite andb_true_iff, is_target_Some.
    unfold is_pawn. rewrite bool_decide_eq_true. done. }
  unfold make_move.
  erewrite bind_ok by (by apply get_piece_getitem).
  rewrite Hp. erewrite bind_ok by reflexivity.
  erewrite bind_ok by reflexivity.
  rewrite Hcap. erewrite bind_ok by reflexivity.
  apply bind_raise.
  change (@board_setitem Board Board_ops) with Board_setitem.
  by apply Board_setitem_off_grid.
Qed.

Lemma make_move_destination_off_grid_witness :
  make_move (7, 1) (9, 2) reset = (Raise IndexError, reset).
Proof.
  apply (make_move_destination_off_grid reset 7 1 9 2 (mkPiece WHITE KNIGHT)).
  - apply reset_wf.
  - reflexivity.
  - reflexivity.
  - lia.
  - intros [Hty _]. discriminate Hty.
Defined.

(** ** The generators: what a destination holds *)

Lemma slide_target b piece row col dr dc steps sq :
  In sq (slide b piece row col dr dc steps) →
  get_piece b sq.1 sq.2 = None
  ∨ is_enemy (Some piece) (get_piece b sq.1 sq.2) = true.
Proof.
  induction steps as [|i steps IH]; cbn [slide]; [done|].
  destruct (is_valid_position (row + i * dr) (col + i * dc)); cbn [negb]; [|done].
  destruct (get_piece b (row + i * dr) (col + i * dc)) as [t|] eqn:Ht; cbn [is_none].
  - destruct (is_enemy (Some piece) (Some t)) eqn:He; [|done].
    intros [<-|[]]. cbn [fst snd]. rewrite Ht. by right.
  - intros [<-|Hin]; [by left|by apply IH].
Qed.

(** X5. No generator offers a square held by a piece of the mover's own
    color: a destination is empty or holds an enemy piece, or it is the
    en-passant target of a pawn; and it is never the square the piece
    stands on. *)
Theorem pseudo_legal_never_friendly
    (b : Board) (row col : Z) (piece : Piece) (sq : Square) :
  get_piece b row col = Some piece →
  sq ∈ Piece_get_legal_moves piece b row col →
  (get_piece b sq.1 sq.2 = None
   ∨ is_enemy (Some piece) (get_piece b sq.1 sq.2) = true
   ∨ (type piece = PAWN ∧ en_passant_target b = Some sq))
  ∧ sq ≠ (row, col).
Proof.
  intros Hp Hin. apply list_elem_of_In in Hin.
  assert (H : (get_piece b sq.1 sq.2 = None
               ∨ is_enemy (Some piece) (get_piece b sq.1 sq.2) = true
               ∨ (type piece = PAWN ∧ en_passant_target b = Some sq))
              ∧ (type piece = PAWN → sq.1 ≠ row)).
  { unfold Piece_get_legal_moves in Hin. destruct (type piece) eqn:Hty.
    - apply (in_pawn_moves _ _ _ _ _ Hp) in Hin.
      destruct Hin as [[-> H1]|[(-> & Hr & H1 & H2)|(dcol & _ & -> & Hd & He)]];
        cbn [fst snd]; (split; [|intros _; destruct (color piece); lia]).
      + by left.
      + by left.
      + destruct He as [He|He]; [by right; left|by right; right].
    - unfold get_rook_moves in Hin. rewrite Hp in Hin.
      apply in_flat_map in Hin as ([dr dc] & _ & Hin).
      apply slide_target in Hin. split; [tauto|done].
    - unfold get_knight_moves in Hin. rewrite Hp in Hin.
      apply in_step_moves in Hin as (dr & dc & _ & -> & _ & Ht).
      cbn [fst snd]. split; [tauto|done].
    - unfold get_bishop_moves in Hin. rewrite Hp in Hin.
      apply in_flat_map in Hin as ([dr dc] & _ & Hin).
      apply slide_target in Hin. split; [tauto|done].
    - unfold get_queen_moves, get_rook_moves, get_bishop_moves in Hin.
      rewrite Hp in Hin.
      apply in_app_iff in Hin as [Hin|Hin];
        apply in_flat_map in Hin as ([dr dc] & _ & Hin);
        apply slide_target in Hin; (split; [tauto|done]).
    - unfold get_king_moves in Hin. rewrite Hp in Hin.
      apply in_step_moves in Hin as (dr & dc & _ & -> & _ & Ht).
      cbn [fst snd]. split; [tauto|done]. }
  destruct H as [H Hrow]. split; [done|].
  intros ->. cbn [fst snd] in *. rewrite Hp in H.
  destruct H as [H|[H|[Hty _]]]; [done| |by apply Hrow].
  cbn in H. by rewrite bool_decide_eq_true_2 in H.
Qed.

Lemma pseudo_legal_never_friendly_witness :
  (get_piece reset (5, 2).1 (5, 2).2 = None
   ∨ is_enemy (Some (mkPiece WHITE KNIGHT)) (get_piece reset (5, 2).1 (5, 2).2) = true
   ∨ (type (mkPiece WHITE KNIGHT) = PAWN ∧ en_passant_target reset = Some (5, 2)))
  ∧ (5, 2) ≠ (7, 1).
Proof.
  apply (pseudo_legal_never_friendly reset 7 1 (mkPiece WHITE KNIGHT) (5, 2)).
  - reflexivity.
  - apply list_elem_of_In. vm_compute. tauto.
Defined.

(** ** Boards without a pawn on the first or the last row *)

Lemma soundb_sound b : soundb b = true → sound b.
Proof.
  unfold soundb. rewrite !andb_true_iff, bool_decide_eq_true.
  intros [[Hlen Hrows] Hedge]. split.
  - split; [done|]. apply Forall_forall. intros r Hr.
    rewrite forallb_forall in Hrows. apply list_elem_of_In in Hr.
    specialize (Hrows r Hr). by apply bool_decide_eq_true in Hrows.
  - intros row col piece Hrow Hp Hty.
    pose proof (get_piece_Some_valid _ _ _ _ Hp) as Hv.
    apply is_valid_position_spec in Hv.
    rewrite forallb_forall in Hedge.
    assert (Hin : In row [0; 7]) by (cbn; lia).
    specialize (Hedge row Hin). rewrite forallb_forall in Hedge.
    assert (Hc : In col (range 0 COLS)).
    { apply list_elem_of_In, elem_of_seqZ. unfold COLS. lia. }
    specialize (Hedge col Hc). rewrite Hp in Hedge.
    unfold is_pawn in Hedge. by rewrite bool_decide_eq_true_2 in Hedge.
Qed.

Lemma reset_sound : sound reset.
Proof. apply soundb_sound. vm_compute. reflexivity. Qed.

Lemma after_move_sound b start end_ piece :
  sound b →
  is_valid_position start.1 start.2 = true →
  is_valid_position end_.1 end_.2 = true →
  get_piece b start.1 start.2 = Some piece →
  sound (after_move b start end_ piece).
Proof.
  intros [Hwf Hedge] Hs He Hp. split.
  - pose proof (make_move_wf start end_ b Hwf) as H.
    by rewrite (make_move_ok b start end_ piece Hwf Hs He Hp) in H.
  - intros row col q Hrow Hq.
    change (get_piece (after_move b start end_ piece) row col)
      with (get_piece (moved_grid b start end_ piece) row col) in Hq.
    rewrite get_piece_moved_grid in Hq by done.
    destruct (decide ((row, col) = end_ ∧ promotes piece end_.1 = true))
      as [[Hend Hpr]|Hnpr].
    { by injection Hq as <-. }
    destruct (decide ((row, col) = start)); [done|].
    destruct (decide ((row, col) = end_)) as [Hend|Hnend].
    { injection Hq as <-. intros Hty. apply Hnpr. split; [done|].
      unfold promotes, is_pawn. rewrite bool_decide_eq_true_2 by done.
      subst end_. cbn [fst snd andb]. lia. }
    destruct (decide _) in Hq; [done|]. by eapply Hedge.
Qed.

(** X6. A move between squares of the board never leaves a pawn on row 0 or
    on row 7 when there was none: the grid stays 8x8 and a pawn that arrives
    on either row is replaced by a queen. *)
Theorem make_move_keeps_edge_rows_free_of_pawns
    (b : Board) (start end_ : Square) (piece : Piece) :
  sound b →
  is_valid_position start.1 start.2 = true →
  is_valid_position end_.1 end_.2 = true →
  get_piece b start.1 start.2 = Some piece →
  (make_move start end_ b).1 = Ok tt ∧ sound (make_move start end_ b).2.
Proof.
  intros Hsound Hs He Hp.
  rewrite (make_move_ok b start end_ piece (proj1 Hsound) Hs He Hp).
  split; [done|]. by apply after_move_sound.
Qed.

Lemma make_move_keeps_edge_rows_free_of_pawns_witness :
  (make_move (1, 0) (0, 0) promotion_position).1 = Ok tt
  ∧ sound (make_move (1, 0) (0, 0) promotion_position).2.
Proof.
  apply (make_move_keeps_edge_rows_free_of_pawns promotion_position (1, 0) (0, 0)
           (mkPiece WHITE PAWN)).
  - apply soundb_sound. vm_compute. reflexivity.
  - reflexivity.
  - reflexivity.
  - reflexivity.
Defined.

(** ** [get_legal_moves] on such boards *)

Lemma legal_loop_In b piece row col moves : ∀ legal,
  legal_loop b piece row col moves = Ok legal →
  ∀ sq, In sq legal ↔
    In sq moves
    ∧ is_in_check (make_move (row, col) sq (temp_board b)).2 (color piece) = false.
Proof.
  induction moves as [|move rest IH]; intros legal Hl sq; cbn [legal_loop] in Hl.
  - injection Hl as <-. cbn. tauto.
  - destruct (make_move (row, col) move (temp_board b)) as [[[]|e] temp] eqn:Hmv;
      [|done].
    destruct (legal_loop b piece row col rest) as [legal'|e] eqn:Hrest; [|done].
    injection Hl as <-. specialize (IH legal' eq_refl sq).
    destruct (is_in_check temp (color piece)) eqn:Hc; cbn [negb In].
    + rewrite IH. split; [tauto|]. intros [[<-|Hin] Hsafe]; [|tauto].
      rewrite Hmv in Hsafe. cbn [snd] in Hsafe. congruence.
    + rewrite IH. split.
      * intros [<-|[Hin Hsafe]]; [|tauto]. rewrite Hmv. cbn [snd]. tauto.
      * intros [[<-|Hin] Hsafe]; tauto.
Qed.

Lemma pseudo_legal_valid_on_sound b row col piece sq :
  sound b → get_piece b row col = Some piece →
  In sq (Piece_get_legal_moves piece b row col) →
  is_valid_position sq.1 sq.2 = true.
Proof.
  intros [Hwf Hedge] Hp Hin.
  eapply Piece_get_legal_moves_valid; [done| |done].
  intros Hty Hrow. eapply (Hedge row col piece); [|done..].
  unfold farthest_row in Hrow. destruct (color piece); lia.
Qed.

Lemma get_legal_moves_sound_returns b row col :
  sound b →
  ∃ legal, get_legal_moves b row col = Ok legal
    ∧ ∀ sq, In sq legal → is_valid_position sq.1 sq.2 = true.
Proof.
  intros Hsound. unfold get_legal_moves.
  destruct (get_piece b row col) as [piece|] eqn:Hp; [|by exists []].
  destruct (legal_loop_returns b piece row col (Piece_get_legal_moves piece b row col))
    as [legal Hl]; [by destruct Hsound|done| |].
  - apply Forall_forall. intros sq Hin. apply list_elem_of_In in Hin.
    by eapply pseudo_legal_valid_on_sound.
  - exists legal. split; [done|]. intros sq Hin.
    apply (legal_loop_In _ _ _ _ _ _ Hl) in Hin as [Hin _].
    by eapply pseudo_legal_valid_on_sound.
Qed.

(** X7. On an 8x8 board without a pawn on row 0 or 7, [get_legal_moves]
    returns a list for every square (it does not raise), and the list holds
    squares of the board only. *)
Theorem get_legal_moves_returns_on_sound_board (b : Board) (row col : Z) :
  sound b →
  ∃ legal, get_legal_moves b row col = Ok legal
    ∧ ∀ sq, sq ∈ legal → is_valid_position sq.1 sq.2 = true.
Proof.
  intros Hsound.
  destruct (get_legal_moves_sound_returns b row col Hsound) as (legal & Hl & Hv).
  exists legal. split; [done|]. intros sq Hin. by apply Hv, list_elem_of_In.
Qed.

Lemma get_legal_moves_returns_on_sound_board_witness :
  ∃ legal, get_legal_moves reset 6 4 = Ok legal
    ∧ ∀ sq, sq ∈ legal → is_valid_position sq.1 sq.2 = true.
Proof.
  apply (get_legal_moves_returns_on_sound_board reset 6 4). apply reset_sound.
Defined.

Lemma no_legal_move_returns b c sqs :
  sound b → ∃ v, no_legal_move b c sqs = Ok v.
Proof.
  intros Hsound. induction sqs as [|[row col] sqs IH]; cbn [no_legal_move]; [by eexists|].
  destruct (get_piece b row col) as [piece|]; [|done].
  destruct (bool_decide (color piece = c)); [|done].
  destruct (get_legal_moves_sound_returns b row col Hsound) as (legal & -> & _).
  destruct legal; [done|by eexists].
Qed.

Lemma terminal_tests_return b c :
  sound b →
  (∃ v, is_checkmate b c = Ok v) ∧ (∃ v, is_stalemate b c = Ok v).
Proof.
  intros Hsound. unfold is_checkmate, is_stalemate.
  destruct (is_in_check b c); cbn [negb]; split;
    (by eexists) || by apply no_legal_move_returns.
Qed.

(** X8. On such a board [is_checkmate] and [is_stalemate] return a boolean:
    neither raises. *)
Theorem terminal_tests_return_on_sound_board (b : Board) (c : Color) :
  sound b →
  (∃ v, is_checkmate b c = Ok v) ∧ (∃ v, is_stalemate b c = Ok v).
Proof. apply terminal_tests_return. Qed.

Lemma terminal_tests_return_on_sound_board_witness :
  (∃ v, is_checkmate fools_mate WHITE = Ok v)
  ∧ (∃ v, is_stalemate fools_mate WHITE = Ok v).
Proof.
  apply (terminal_tests_return_on_sound_board fools_mate WHITE).
  apply soundb_sound. vm_compute. reflexivity.
Defined.

(** ** What the legality filter keeps *)

Lemma moved_grid_board b1 b2 start end_ piece :
  board b1 = board b2 →
  is_target end_ (en_passant_target b1) = is_target end_ (en_passant_target b2)
  ∨ is_pawn piece = false →
  board (moved_grid b1 start end_ piece) = board (moved_grid b2 start end_ piece).
Proof.
  intros Hg Hc. unfold moved_grid.
  assert (Hcap : is_pawn piece && is_target end_ (en_passant_target b1)
                 = is_pawn piece && is_target end_ (en_passant_target b2)).
  { destruct Hc as [->| ->]; done. }
  rewrite Hcap.
  destruct (is_pawn piece && is_target end_ (en_passant_target b2));
    destruct (promotes piece end_.1); cbn [set_cell set_board board];
    by rewrite Hg.
Qed.

(** The scratch board and the board itself after the same move, when the
    move is no capture en passant. *)
Lemma after_move_temp_board b start end_ piece :
  ¬ (type piece = PAWN ∧ en_passant_target b = Some end_) →
  same_layout (after_move (temp_board b) start end_ piece)
              (after_move b start end_ piece).
Proof.
  intros Hnep. split; [|done].
  cbn [after_move board]. apply moved_grid_board; [apply temp_board_grid|].
  destruct (is_pawn piece) eqn:Hpawn; [left|by right].
  apply bool_decide_eq_true in Hpawn.
  unfold temp_board, set_board. cbn [en_passant_target].
  rewrite reset_en_passant_target. cbn [is_target].
  symmetry. apply not_true_is_false. rewrite is_target_Some. tauto.
Qed.

(** X9. On an 8x8 board without a pawn on row 0 or 7, and for any
    destination that is not the en-passant target of a pawn,
    [get_legal_moves] keeps a destination exactly when it is pseudo-legal
    and, once [make_move] has made that move on the board itself, the
    mover's color is not in check. *)
Theorem legal_moves_keep_own_king_safe
    (b : Board) (row col : Z) (piece : Piece) (legal : list Square) (sq : Square) :
  sound b →
  get_piece b row col = Some piece →
  get_legal_moves b row col = Ok legal →
  ¬ (type piece = PAWN ∧ en_passant_target b = Some sq) →
  (sq ∈ legal ↔
     sq ∈ Piece_get_legal_moves piece b row col
     ∧ (make_move (row, col) sq b).1 = Ok tt
     ∧ is_in_check (make_move (row, col) sq b).2 (color piece) = false).
Proof.
  intros Hsound Hp Hl Hnep. pose proof Hsound as [Hwf _].
  unfold get_legal_moves in Hl. rewrite Hp in Hl.
  rewrite !list_elem_of_In, (legal_loop_In _ _ _ _ _ _ Hl sq).
  pose proof (get_piece_Some_valid _ _ _ _ Hp) as Hv.
  assert (Hwf' : wf_grid (temp_board b)).
  { unfold wf_grid. by rewrite temp_board_grid. }
  assert (Hp' : get_piece (temp_board b) row col = Some piece).
  { unfold get_piece in *. by rewrite temp_board_grid. }
  assert (Hsame : In sq (Piece_get_legal_moves piece b row col) →
    (make_move (row, col) sq b).1 = Ok tt
    ∧ is_in_check (make_move (row, col) sq (temp_board b)).2 (color piece)
      = is_in_check (make_move (row, col) sq b).2 (color piece)).
  { intros Hin.
    pose proof (pseudo_legal_valid_on_sound _ _ _ _ _ Hsound Hp Hin) as Hsq.
    rewrite (make_move_ok b (row, col) sq piece Hwf Hv Hsq Hp).
    rewrite (make_move_ok (temp_board b) (row, col) sq piece Hwf' Hv Hsq Hp').
    split; [done|]. cbn [snd].
    by apply is_in_check_layout, after_move_temp_board. }
  split.
  - intros [Hin Hsafe]. destruct (Hsame Hin) as [Hok Heq].
    split; [done|]. split; [done|]. by rewrite <- Heq.
  - intros (Hin & _ & Hsafe). destruct (Hsame Hin) as [_ Heq].
    split; [done|]. by rewrite Heq.
Qed.

Lemma legal_moves_keep_own_king_safe_witness :
  (5, 2) ∈ [(5, 0); (5, 2)] ↔
     (5, 2) ∈ Piece_get_legal_moves (mkPiece WHITE KNIGHT) reset 7 1
     ∧ (make_move (7, 1) (5, 2) reset).1 = Ok tt
     ∧ is_in_check (make_move (7, 1) (5, 2) reset).2 (color (mkPiece WHITE KNIGHT))
       = false.
Proof.
  apply (legal_moves_keep_own_king_safe reset 7 1 (mkPiece WHITE KNIGHT)
           [(5, 0); (5, 2)] (5, 2)).
  - apply reset_sound.
  - reflexivity.
  - vm_compute. reflexivity.
  - intros [Hty _]. discriminate Hty.
Defined.

(** ** Terminal states without a king or without pieces *)

(** X10. A color without a king is never reported checkmated, and a color
    without any piece is reported stalemated: [is_checkmate] returns [False]
    in the first case and [is_stalemate] returns [True] in the second. *)
Theorem terminal_tests_without_pieces (b : Board) (c : Color) :
  ((∀ row col, get_piece b row col ≠ Some (mkPiece c KING)) →
   is_checkmate b c = Ok false)
  ∧ ((∀ row col piece, get_piece b row col = Some piece → color piece ≠ c) →
     is_stalemate b c = Ok true).
Proof.
  split.
  - intros Hno. apply find_king_None in Hno.
    unfold is_checkmate, is_in_check. by rewrite Hno.
  - intros Hno.
    assert (Hk : find_king b c = None).
    { apply find_king_None. intros row col Hp. by apply Hno in Hp. }
    unfold is_stalemate, is_in_check. rewrite Hk.
    apply no_legal_move_squares. intros row col piece Hp Hc.
    by apply Hno in Hp.
Qed.

(** ** Check, by the geometry of the pieces *)

Lemma sgn_cases x :
  (x < 0 ∧ Z.sgn x = -1) ∨ (x = 0 ∧ Z.sgn x = 0) ∨ (0 < x ∧ Z.sgn x = 1).
Proof. lia. Qed.

(** A slider reaches a square of the board exactly along a clear line that
    ends on an empty square or on an enemy piece. *)
Lemma slide_reaches b piece r c tr tc dirs :
  is_valid_position r c = true →
  (∀ dr dc, In (dr, dc) dirs → -1 ≤ dr ≤ 1 ∧ -1 ≤ dc ≤ 1 ∧ (dr ≠ 0 ∨ dc ≠ 0)) →
  (∃ dr dc, In (dr, dc) dirs ∧ In (tr, tc) (slide b piece r c dr dc (range 1 8))) ↔
  is_valid_position tr tc = true
  ∧ In (Z.sgn (tr - r), Z.sgn (tc - c)) dirs
  ∧ (tr - r = 0 ∨ tc - c = 0 ∨ Z.abs (tr - r) = Z.abs (tc - c))
  ∧ clear_between b r c tr tc
  ∧ (get_piece b tr tc = None ∨ is_enemy (Some piece) (get_piece b tr tc) = true).
Proof.
  intros Hv Hdirs. apply is_valid_position_spec in Hv.
  change (range 1 8) with (seqZ 1 (Z.of_nat 7)).
  split.
  - intros (dr & dc & Hd & Hin).
    apply in_slide in Hin as (k & Hk & Heq & Hval & Hall & Hend).
    destruct (Hdirs dr dc Hd) as (Hdr & Hdc & Hnz).
    injection Heq as Hr Hc.
    assert (Hsr : Z.sgn (tr - r) = dr ∧ Z.sgn (tc - c) = dc
                  ∧ Z.max (Z.abs (tr - r)) (Z.abs (tc - c)) = k
                  ∧ (tr - r = 0 ∨ tc - c = 0 ∨ Z.abs (tr - r) = Z.abs (tc - c))).
    { assert (dr = -1 ∨ dr = 0 ∨ dr = 1) as [->|[->| ->]] by lia;
      assert (dc = -1 ∨ dc = 0 ∨ dc = 1) as [->|[->| ->]] by lia; lia. }
    destruct Hsr as (Hs1 & Hs2 & Hmax & Hline).
    split; [subst tr tc; apply Hval; lia|].
    split; [by rewrite Hs1, Hs2|]. split; [done|].
    split; [|by subst tr tc].
    intros j Hj. rewrite Hs1, Hs2. apply Hall. lia.
  - intros (Htv & Hd & Hline & Hclear & He).
    apply is_valid_position_spec in Htv.
    exists (Z.sgn (tr - r)), (Z.sgn (tc - c)). split; [done|].
    destruct (Hdirs _ _ Hd) as (_ & _ & Hnz).
    apply in_slide.
    exists (Z.max (Z.abs (tr - r)) (Z.abs (tc - c))).
    unfold clear_between in Hclear.
    destruct (sgn_cases (tr - r)) as [[H1 S1]|[[H1 S1]|[H1 S1]]];
      destruct (sgn_cases (tc - c)) as [[H2 S2]|[[H2 S2]|[H2 S2]]];
      rewrite S1, S2 in *;
      (split; [lia|]); (split; [f_equal; lia|]);
      (split; [intros j Hj; apply is_valid_position_spec; lia|]);
      (split; [intros j Hj; apply Hclear; lia|]);
      match goal with
      | |- get_piece b ?x ?y = None ∨ _ =>
          replace x with tr by lia; replace y with tc by lia; exact He
      end.
Qed.

Lemma rook_directions_sgn x y :
  In (Z.sgn x, Z.sgn y) rook_directions ↔ (x = 0 ∨ y = 0) ∧ (x ≠ 0 ∨ y ≠ 0).
Proof.
  unfold rook_directions. cbn [In].
  destruct (sgn_cases x) as [[H1 S1]|[[H1 S1]|[H1 S1]]];
    destruct (sgn_cases y) as [[H2 S2]|[[H2 S2]|[H2 S2]]];
    rewrite S1, S2; (split;
      [intros [H|[H|[H|[H|[]]]]]; first [discriminate H | lia]
      |intros ?; first [lia | auto 10]]).
Qed.

Lemma bishop_directions_sgn x y :
  In (Z.sgn x, Z.sgn y) bishop_directions ↔ x ≠ 0 ∧ y ≠ 0.
Proof.
  unfold bishop_directions. cbn [In].
  destruct (sgn_cases x) as [[H1 S1]|[[H1 S1]|[H1 S1]]];
    destruct (sgn_cases y) as [[H2 S2]|[[H2 S2]|[H2 S2]]];
    rewrite S1, S2; (split;
      [intros [H|[H|[H|[H|[]]]]]; first [discriminate H | lia]
      |intros ?; first [lia | auto 10]]).
Qed.

Lemma step_reaches b piece r c tr tc offsets :
  In (tr, tc) (step_moves b piece r c offsets) ↔
  is_valid_position tr tc = true
  ∧ In (tr - r, tc - c) offsets
  ∧ (get_piece b tr tc = None ∨ is_enemy (Some piece) (get_piece b tr tc) = true).
Proof.
  rewrite in_step_moves. split.
  - intros (dr & dc & Hin & [= -> ->] & Hv & He).
    replace (r + dr - r) with dr by lia. replace (c + dc - c) with dc by lia.
    done.
  - intros (Hv & Hin & He). exists (tr - r), (tc - c).
    replace (r + (tr - r)) with tr by lia. replace (c + (tc - c)) with tc by lia.
    done.
Qed.

(** The generators of the pieces other than the pawn, by the geometry of
    the pieces. *)
Lemma non_pawn_moves_geometry b r c piece tr tc :
  get_piece b r c = Some piece →
  type piece ≠ PAWN →
  In (tr, tc) (Piece_get_legal_moves piece b r c) ↔
  is_valid_position tr tc = true
  ∧ bears_on b piece r c tr tc
  ∧ (get_piece b tr tc = None ∨ is_enemy (Some piece) (get_piece b tr tc) = true).
Proof.
  intros Hp Hnp. pose proof (get_piece_Some_valid _ _ _ _ Hp) as Hv.
  assert (Hrook : ∀ dr dc, In (dr, dc) rook_directions →
            -1 ≤ dr ≤ 1 ∧ -1 ≤ dc ≤ 1 ∧ (dr ≠ 0 ∨ dc ≠ 0)).
  { intros dr dc Hd. cbn in Hd.
    repeat (destruct Hd as [[= <- <-]|Hd]; [lia|]). done. }
  assert (Hbishop : ∀ dr dc, In (dr, dc) bishop_directions →
            -1 ≤ dr ≤ 1 ∧ -1 ≤ dc ≤ 1 ∧ (dr ≠ 0 ∨ dc ≠ 0)).
  { intros dr dc Hd. cbn in Hd.
    repeat (destruct Hd as [[= <- <-]|Hd]; [lia|]). done. }
  assert (Hfm : ∀ dirs,
    (∃ d, In d dirs ∧ In (tr, tc) (let '(dr, dc) := d in
                                   slide b piece r c dr dc (range 1 8)))
    ↔ ∃ dr dc, In (dr, dc) dirs ∧ In (tr, tc) (slide b piece r c dr dc (range 1 8))).
  { intros dirs. split; [intros ([dr dc] & ? & ?); eauto
                        |intros (dr & dc & ? & ?); by exists (dr, dc)]. }
  unfold Piece_get_legal_moves, bears_on. destruct (type piece) eqn:Hty; [done|..].
  - (* rook *)
    unfold get_rook_moves. rewrite Hp, in_flat_map, Hfm, slide_reaches by done.
    rewrite rook_directions_sgn. tauto.
  - (* knight *)
    unfold get_knight_moves. rewrite Hp, step_reaches.
    assert (Hk : In (tr - r, tc - c) knight_moves ↔
              (Z.abs (tr - r) = 1 ∧ Z.abs (tc - c) = 2)
              ∨ (Z.abs (tr - r) = 2 ∧ Z.abs (tc - c) = 1)).
    { unfold knight_moves. cbn [In]. split.
      - intros H. repeat (destruct H as [[= H1 H2]|H]; [lia|]). done.
      - intros H.
        assert (Hc : (tr - r = -2 ∨ tr - r = -1 ∨ tr - r = 1 ∨ tr - r = 2)
                     ∧ (tc - c = -2 ∨ tc - c = -1 ∨ tc - c = 1 ∨ tc - c = 2)) by lia.
        destruct Hc as [[Hr|[Hr|[Hr|Hr]]] [Hc|[Hc|[Hc|Hc]]]]; rewrite Hr, Hc;
          first [lia | auto 10]. }
    rewrite Hk. tauto.
  - (* bishop *)
    unfold get_bishop_moves. rewrite Hp, in_flat_map, Hfm, slide_reaches by done.
    rewrite bishop_directions_sgn. split.
    + intros (? & ? & ? & ? & ?). split; [done|]. split; [|done].
      split; [lia|]. split; [lia|done].
    + intros (? & (? & ? & ?) & ?). split; [done|]. split; [lia|].
      split; [lia|]. done.
  - (* queen *)
    unfold get_queen_moves, get_rook_moves, get_bishop_moves.
    rewrite Hp, in_app_iff, !in_flat_map, !Hfm, !slide_reaches by done.
    rewrite rook_directions_sgn, bishop_directions_sgn. split.
    + intros [(? & ? & ? & ? & ?)|(? & ? & ? & ? & ?)];
        (split; [done|]); (split; [|done]); (split; [lia|split; [lia|done]]).
    + intros (? & (Hl & Hnz & Hcl) & ?).
      destruct (decide (tr - r = 0 ∨ tc - c = 0)); [left|right];
        (split; [done|]); (split; [lia|]); (split; [lia|done]).
  - (* king *)
    unfold get_king_moves. rewrite Hp, step_reaches.
    assert (Hk : In (tr - r, tc - c) king_moves ↔
              Z.max (Z.abs (tr - r)) (Z.abs (tc - c)) = 1).
    { unfold king_moves. cbn [In]. split.
      - intros H. repeat (destruct H as [[= H1 H2]|H]; [lia|]). done.
      - intros H.
        assert (Hc : (tr - r = -1 ∨ tr - r = 0 ∨ tr - r = 1)
                     ∧ (tc - c = -1 ∨ tc - c = 0 ∨ tc - c = 1)) by lia.
        destruct Hc as [[Hr|[Hr|Hr]] [Hc|[Hc|Hc]]]; rewrite Hr, Hc in *;
          first [lia | auto 10]. }
    rewrite Hk. tauto.
Qed.

(** On a square held by an enemy piece, the generators and the geometry of
    the pieces agree. *)
Lemma pseudo_legal_enemy_square b r c piece tr tc :
  get_piece b r c = Some piece →
  is_enemy (Some piece) (get_piece b tr tc) = true →
  In (tr, tc) (Piece_get_legal_moves piece b r c) ↔ bears_on b piece r c tr tc.
Proof.
  intros Hp He.
  assert (Hsome : get_piece b tr tc ≠ None).
  { intros Hn. by rewrite Hn in He. }
  assert (Htv : is_valid_position tr tc = true).
  { destruct (get_piece b tr tc) eqn:Ht; [by eapply get_piece_Some_valid|done]. }
  destruct (decide (type piece = PAWN)) as [Hty|Hty].
  - unfold Piece_get_legal_moves, bears_on. rewrite Hty.
    rewrite (in_pawn_moves _ _ _ _ _ Hp). split.
    + intros [[[= -> ->] Hn]|[([= -> ->] & _ & _ & Hn)|(dcol & Hd & [= -> ->] & _)]];
        [done|done|]. lia.
    + intros [Hr Hc]. right; right. exists (tc - c).
      split; [lia|]. split; [f_equal; lia|].
      replace (r + _) with tr by lia. replace (c + (tc - c)) with tc by lia.
      auto.
  - rewrite (non_pawn_moves_geometry _ _ _ _ _ _ Hp Hty). tauto.
Qed.

(** X11. A color whose king [find_king] finds is in check exactly when some
    piece of the other color bears on the king's square as the rules of
    chess have it: a pawn from one row behind and one column aside, a knight
    by its jump, a king from an adjacent square, a rook, bishop or queen
    along a line with every square in between empty. *)
Theorem is_in_check_by_geometry (b : Board) (c : Color) (king_row king_col : Z) :
  find_king b c = Some (king_row, king_col) →
  (is_in_check b c = true ↔
     ∃ row col piece, get_piece b row col = Some piece
       ∧ color piece = other c
       ∧ bears_on b piece row col king_row king_col).
Proof.
  intros Hk. pose proof (find_king_Some _ _ _ _ Hk) as Hking.
  unfold is_in_check. rewrite Hk.
  replace (match c with WHITE => BLACK | BLACK => WHITE end) with (other c) by done.
  rewrite is_square_attacked_spec.
  assert (He : ∀ piece, color piece = other c →
             is_enemy (Some piece) (get_piece b king_row king_col) = true).
  { intros piece Hc. rewrite Hking. cbn. rewrite Hc.
    rewrite bool_decide_eq_false_2; [done|]. by destruct c. }
  split; intros (row & col & piece & Hp & Hc & H); exists row, col, piece;
    (split; [done|split; [done|]]);
    by apply (pseudo_legal_enemy_square b row col piece king_row king_col Hp (He _ Hc)).
Qed.

Lemma is_in_check_by_geometry_witness :
  is_in_check fools_mate WHITE = true ↔
     ∃ row col piece, get_piece fools_mate row col = Some piece
       ∧ color piece = other WHITE
       ∧ bears_on fools_mate piece row col 7 4.
Proof.
  apply (is_in_check_by_geometry fools_mate WHITE 7 4). vm_compute. reflexivity.
Defined.

(** ** [Piece.__str__] and the keys of [PIECES] *)

(** X12. The name [str(piece)] of every piece is one of the twelve keys of
    [PIECES], and two different pieces have different names: looking up a
    piece's image never fails and never gives another piece's image. *)
Theorem Piece_str_is_a_key_of_PIECES :
  (∀ piece, Piece_str piece ∈ PIECES_keys)
  ∧ (∀ p q, Piece_str p = Piece_str q → p = q).
Proof.
  split.
  - intros [[] []]; apply list_elem_of_In; vm_compute; auto 20.
  - intros [[] []] [[] []] H; first [reflexivity | discriminate H].
Qed.

Lemma Piece_str_key piece : Piece_str piece ∈ PIECES_keys.
Proof. destruct piece as [[] []]; apply list_elem_of_In; vm_compute; auto 20. Qed.

(** ** The game: one click *)

Lemma owned_Some cell player piece :
  ChessGame.owned cell player = Some piece →
  cell = Some piece ∧ color piece = player.
Proof.
  unfold ChessGame.owned. destruct cell as [p|]; [|done].
  case_bool_decide; [|done]. by intros [= <-].
Qed.

Lemma select_spec g row col piece pos :
  sound (ChessGame.board g) →
  ∃ legal, get_legal_moves (ChessGame.board g) row col = Ok legal
    ∧ ChessGame.select row col piece pos g =
        (Ok tt, ChessGame.mk (ChessGame.board g) (Some (row, col))
                  (Some (Piece_str piece, pos)) legal
                  (ChessGame.game_over g) (ChessGame.winner g)).
Proof.
  intros Hsound.
  destruct (get_legal_moves_sound_returns _ row col Hsound) as (legal & Hl & _).
  exists legal. split; [done|].
  unfold ChessGame.select, bind, modify, gets, lift.
  cbn [ChessGame.set_selected_piece ChessGame.set_dragging_piece ChessGame.board
       ChessGame.set_legal_moves ChessGame.selected_piece ChessGame.dragging_piece
       ChessGame.legal_moves ChessGame.game_over ChessGame.winner].
  by rewrite Hl.
Qed.

Lemma deselect_spec g :
  ChessGame.deselect g =
    (Ok tt, ChessGame.mk (ChessGame.board g) None None []
              (ChessGame.game_over g) (ChessGame.winner g)).
Proof. reflexivity. Qed.

Lemma check_game_over_spec g :
  sound (ChessGame.board g) →
  ChessGame.game_over g = false → ChessGame.winner g = None →
  let b := ChessGame.board g in
  let player := current_player b in
  ∃ over w,
    ChessGame.check_game_over g =
      (Ok tt, ChessGame.mk b (ChessGame.selected_piece g) (ChessGame.dragging_piece g)
                (ChessGame.legal_moves g) over w)
    ∧ (if over then
         (is_checkmate b player = Ok true ∧ w = Some (other player))
         ∨ (is_checkmate b player = Ok false ∧ is_stalemate b player = Ok true
            ∧ w = None)
       else
         is_checkmate b player = Ok false ∧ is_stalemate b player = Ok false
         ∧ w = None).
Proof.
  intros Hsound Hover Hw b player.
  destruct (terminal_tests_return b player) as [[mate Hmate] [stale Hstale]]; [done|].
  unfold ChessGame.check_game_over, bind, modify, gets, lift.
  fold b. fold player. rewrite Hmate.
  destruct mate.
  - exists true, (Some (other player)). split; [|by left].
    cbn [ChessGame.set_game_over ChessGame.set_winner ChessGame.board
         ChessGame.selected_piece ChessGame.dragging_piece ChessGame.legal_moves
         ChessGame.game_over ChessGame.winner].
    by destruct player.
  - fold b. rewrite Hstale. destruct stale.
    + exists true, None. split; [done|by right].
    + exists false, None. split; [|done].
      unfold ret. destruct g. cbn in *. by subst.
Qed.

Lemma game_inv_same_board g g' :
  game_inv g →
  ChessGame.board g' = ChessGame.board g →
  ChessGame.game_over g' = ChessGame.game_over g →
  ChessGame.winner g' = ChessGame.winner g →
  match ChessGame.selected_piece g' with
  | Some (row, col) =>
      ∃ piece, get_piece (ChessGame.board g) row col = Some piece
        ∧ color piece = current_player (ChessGame.board g)
        ∧ get_legal_moves (ChessGame.board g) row col = Ok (ChessGame.legal_moves g')
  | None => ChessGame.legal_moves g' = []
  end →
  match ChessGame.dragging_piece g' with
  | Some (name, _) => name ∈ PIECES_keys
  | None => True
  end →
  game_inv g'.
Proof.
  intros (Hsound & _ & _ & Hover) Hb Ho Hw Hsel Hdrag.
  unfold game_inv. rewrite Hb, Ho, Hw. done.
Qed.

(** What one click does to a game between two events. *)
Lemma handle_click_spec pos g :
  game_inv g →
  let end_ := (pos.2 `div` SQUARE_SIZE, pos.1 `div` SQUARE_SIZE) in
  ∃ g', ChessGame.handle_click pos g = (Ok tt, g')
    ∧ game_inv g'
    ∧ (ChessGame.board g' = ChessGame.board g
       ∨ ∃ start piece,
           ChessGame.game_over g = false
           ∧ ChessGame.selected_piece g = Some start
           ∧ get_piece (ChessGame.board g) start.1 start.2 = Some piece
           ∧ color piece = current_player (ChessGame.board g)
           ∧ get_legal_moves (ChessGame.board g) start.1 start.2
             = Ok (ChessGame.legal_moves g)
           ∧ end_ ∈ ChessGame.legal_moves g
           ∧ make_move start end_ (ChessGame.board g) = (Ok tt, ChessGame.board g')
           ∧ ChessGame.selected_piece g' = None)
    ∧ (∀ start,
         ChessGame.game_over g = false →
         ChessGame.selected_piece g = Some start →
         end_ ∈ ChessGame.legal_moves g →
         make_move start end_ (ChessGame.board g) = (Ok tt, ChessGame.board g')
         ∧ ChessGame.selected_piece g' = None).
Proof.
  intros Hinv end_. pose proof Hinv as (Hsound & Hsel & Hdrag & Hover).
  unfold ChessGame.handle_click.
  rewrite (bind_ok _ _ g (ChessGame.game_over g) g) by reflexivity.
  destruct (ChessGame.game_over g) eqn:Hgo.
  { exists g. split; [done|]. split; [done|]. split; [by left|done]. }
  set (col := pos.1 `div` SQUARE_SIZE) in *. set (row := pos.2 `div` SQUARE_SIZE) in *.
  rewrite (bind_ok _ _ g (get_piece (ChessGame.board g) row col) g) by reflexivity.
  rewrite (bind_ok _ _ g (ChessGame.selected_piece g) g) by reflexivity.
  assert (Hselect : ∀ piece,
    ChessGame.owned (get_piece (ChessGame.board g) row col)
                    (current_player (ChessGame.board g)) = Some piece →
    ∃ g', ChessGame.select row col piece pos g = (Ok tt, g')
      ∧ game_inv g' ∧ ChessGame.board g' = ChessGame.board g).
  { intros piece Ho. apply owned_Some in Ho as [Hp Hc].
    destruct (select_spec g row col piece pos Hsound) as (legal & Hl & ->).
    eexists. split; [done|]. split; [|done].
    apply (game_inv_same_board g); [done..| |]; cbn.
    - by exists piece.
    - apply Piece_str_key. }
  assert (Hdeselect : ∃ g', ChessGame.deselect g = (Ok tt, g')
      ∧ game_inv g' ∧ ChessGame.board g' = ChessGame.board g).
  { rewrite deselect_spec. eexists. split; [done|]. split; [|done].
    by apply (game_inv_same_board g). }
  destruct (ChessGame.selected_piece g) as [[start_row start_col]|] eqn:Hs.
  - rewrite (bind_ok _ _ g (ChessGame.legal_moves g) g) by reflexivity.
    destruct Hsel as (piece & Hp & Hc & Hl).
    destruct (existsb (square_eqb (row, col)) (ChessGame.legal_moves g)) eqn:Hex.
    + apply existsb_exists in Hex as (sq & Hin & Heq).
      apply square_eqb_eq in Heq as <-.
      destruct (get_legal_moves_sound_returns _ start_row start_col Hsound)
        as (legal & Hl' & Hvalid).
      rewrite Hl in Hl'. injection Hl' as <-.
      pose proof (Hvalid _ Hin) as Hv.
      pose proof (get_piece_Some_valid _ _ _ _ Hp) as Hsv.
      pose proof (make_move_ok (ChessGame.board g) (start_row, start_col) (row, col)
                    piece (proj1 Hsound) Hsv Hv Hp) as Hmv.
      set (b' := after_move (ChessGame.board g) (start_row, start_col) (row, col) piece)
        in *.
      assert (Hsound' : sound b') by (by apply after_move_sound).
      erewrite bind_ok; cycle 1.
      { unfold ChessGame.on_board. rewrite Hmv. reflexivity. }
      rewrite (bind_ok _ _ _ tt _ (deselect_spec _)).
      cbn [ChessGame.set_board ChessGame.board ChessGame.game_over ChessGame.winner].
      rewrite Hgo.
      destruct Hover as (_ & _ & Hw).
      set (g1 := ChessGame.mk b' None None [] false (ChessGame.winner g)).
      destruct (check_game_over_spec g1 Hsound' eq_refl Hw) as (over & w & -> & Hcl).
      eexists. split; [done|]. split; [|split].
      * unfold game_inv.
        cbn [ChessGame.board ChessGame.selected_piece ChessGame.dragging_piece
             ChessGame.legal_moves ChessGame.game_over ChessGame.winner g1].
        done.
      * right. exists (start_row, start_col), piece.
        cbn [fst snd ChessGame.board ChessGame.selected_piece g1].
        repeat (split; [done|]). split; [by apply list_elem_of_In|done].
      * intros start _ [= <-] _.
        cbn [fst snd ChessGame.board ChessGame.selected_piece g1]. done.
    + assert (Hnot : ∀ start : Square,
                false = false → Some (start_row, start_col) = Some start →
                end_ ∈ ChessGame.legal_moves g → False).
      { intros start _ _ Hin. apply list_elem_of_In in Hin.
        assert (Ht : existsb (square_eqb (row, col)) (ChessGame.legal_moves g) = true).
        { apply existsb_exists. exists (row, col). split; [done|].
          by apply square_eqb_eq. }
        rewrite Hex in Ht. discriminate Ht. }
      rewrite (bind_ok _ _ g (current_player (ChessGame.board g)) g) by reflexivity.
      destruct (ChessGame.owned _ _) as [q|] eqn:Ho.
      * destruct (Hselect q eq_refl) as (g' & -> & Hi & Hb). exists g'.
        split; [done|]. split; [done|]. split; [by left|].
        intros start H1 H2 H3. destruct (Hnot start H1 H2 H3).
      * destruct Hdeselect as (g' & -> & Hi & Hb). exists g'.
        split; [done|]. split; [done|]. split; [by left|].
        intros start H1 H2 H3. destruct (Hnot start H1 H2 H3).
  - rewrite (bind_ok _ _ g (current_player (ChessGame.board g)) g) by reflexivity.
    destruct (ChessGame.owned _ _) as [q|] eqn:Ho.
    + destruct (Hselect q eq_refl) as (g' & -> & Hi & Hb). exists g'.
      split; [done|]. split; [done|]. split; [by left|done].
    + exists g. split; [done|]. split; [done|]. split; [by left|done].
Qed.

Lemma handle_drag_spec pos g :
  game_inv g →
  ∃ g', ChessGame.handle_drag pos g = (Ok tt, g') ∧ game_inv g'
        ∧ ChessGame.board g' = ChessGame.board g.
Proof.
  intros Hinv. pose proof Hinv as (Hsound & Hsel & Hdrag & Hover).
  unfold ChessGame.handle_drag.
  rewrite (bind_ok _ _ g (ChessGame.dragging_piece g) g) by reflexivity.
  destruct (ChessGame.dragging_piece g) as [[name old]|] eqn:Hd.
  - eexists. split; [reflexivity|]. split; [|done].
    apply (game_inv_same_board g); try done.
  - exists g. done.
Qed.

Lemma init_inv : game_inv ChessGame.init.
Proof.
  split; [apply reset_sound|]. split; [done|]. split; [done|].
  cbn [ChessGame.game_over ChessGame.init ChessGame.board ChessGame.winner].
  assert (Hp : current_player reset = WHITE) by (vm_compute; reflexivity).
  rewrite Hp. split; [|split; [|done]]; vm_compute; reflexivity.
Qed.

Lemma handle_event_spec event mouse_pos a :
  game_inv (game a) →
  ∃ a', handle_event event mouse_pos a = (Ok tt, a') ∧ game_inv (game a').
Proof.
  intros Hinv. destruct event; cbn [handle_event].
  - by eexists.
  - destruct (handle_click_spec mouse_pos _ Hinv) as (g' & Hg & Hi & _).
    unfold on_game. rewrite Hg. by eexists.
  - destruct (handle_drag_spec mouse_pos _ Hinv) as (g' & Hg & Hi & _).
    unfold on_game. rewrite Hg. by eexists.
  - destruct (handle_click_spec mouse_pos _ Hinv) as (g' & Hg & Hi & _).
    unfold on_game. rewrite Hg. by eexists.
  - destruct (key =? K_r); eexists; (split; [reflexivity|]); [apply init_inv|done].
  - by eexists.
Qed.

Lemma reachable_inv a : reachable a → game_inv (game a).
Proof.
  induction 1 as [|a event mouse_pos a' _ IH Hev]; [apply init_inv|].
  destruct (handle_event_spec event mouse_pos a IH) as (a'' & Hev' & Hi).
  rewrite Hev in Hev'. by injection Hev' as <-.
Qed.

(** ** The game: what the event loop keeps *)

(** X13. No event makes the game raise: in every state [main] reaches from
    its start, handling any event with the mouse anywhere returns
    normally. *)
Theorem events_never_raise (a : App) (event : Event) (mouse_pos : Z * Z) :
  reachable a → (handle_event event mouse_pos a).1 = Ok tt.
Proof.
  intros Hr.
  destruct (handle_event_spec event mouse_pos a (reachable_inv a Hr)) as (a' & -> & _).
  done.
Qed.

Lemma events_never_raise_witness :
  (handle_event MOUSEBUTTONDOWN (330, 500) App_init).1 = Ok tt.
Proof.
  apply (events_never_raise App_init MOUSEBUTTONDOWN (330, 500)).
  apply reachable_init.
Defined.

(** X14. Between two events the board is 8x8 with no pawn on row 0 or 7,
    and a selected square holds a piece of the side to move whose legal
    moves, as [get_legal_moves] returns them on the current board, are the
    game's [legal_moves]; with nothing selected [legal_moves] is empty. *)
Theorem selection_is_of_the_side_to_move (a : App) :
  reachable a →
  sound (ChessGame.board (game a))
  ∧ match ChessGame.selected_piece (game a) with
    | Some (row, col) =>
        ∃ piece, get_piece (ChessGame.board (game a)) row col = Some piece
          ∧ color piece = current_player (ChessGame.board (game a))
          ∧ get_legal_moves (ChessGame.board (game a)) row col
            = Ok (ChessGame.legal_moves (game a))
    | None => ChessGame.legal_moves (game a) = []
    end.
Proof.
  intros Hr. destruct (reachable_inv a Hr) as (Hsound & Hsel & _). done.
Qed.

Lemma selection_is_of_the_side_to_move_witness :
  sound (ChessGame.board (game App_init))
  ∧ match ChessGame.selected_piece (game App_init) with
    | Some (row, col) =>
        ∃ piece, get_piece (ChessGame.board (game App_init)) row col = Some piece
          ∧ color piece = current_player (ChessGame.board (game App_init))
          ∧ get_legal_moves (ChessGame.board (game App_init)) row col
            = Ok (ChessGame.legal_moves (game App_init))
    | None => ChessGame.legal_moves (game App_init) = []
    end.
Proof.
  apply (selection_is_of_the_side_to_move App_init). apply reachable_init.
Defined.

(** X15. The game is marked over exactly in the positions where the side to
    move is checkmated or stalemated, and the winner is the other color
    after a checkmate and [None] otherwise. *)
Theorem game_over_iff_mate_or_stalemate (a : App) :
  reachable a →
  let g := game a in
  let b := ChessGame.board g in
  let player := current_player b in
  (ChessGame.game_over g = true ↔
     is_checkmate b player = Ok true ∨ is_stalemate b player = Ok true)
  ∧ (∀ c, ChessGame.winner g = Some c ↔
          is_checkmate b player = Ok true ∧ c = other player).
Proof.
  intros Hr g b player.
  destruct (reachable_inv a Hr) as (_ & _ & _ & Hover).
  fold g b player in Hover.
  destruct (ChessGame.game_over g).
  - destruct Hover as [[Hm Hw]|(Hm & Hs & Hw)]; rewrite Hw.
    + split; [tauto|]. intros c. split; [by intros [= <-]|by intros [_ ->]].
    + split; [tauto|]. intros c. split; [done|]. intros [Hm' _]. congruence.
  - destruct Hover as (Hm & Hs & Hw). rewrite Hw, Hm, Hs.
    split; [split; [done|intros [|]; done]|].
    intros c. split; [done|]. by intros [? _].
Qed.

Lemma game_over_iff_mate_or_stalemate_witness :
  let g := game App_init in
  let b := ChessGame.board g in
  let player := current_player b in
  (ChessGame.game_over g = true ↔
     is_checkmate b player = Ok true ∨ is_stalemate b player = Ok true)
  ∧ (∀ c, ChessGame.winner g = Some c ↔
          is_checkmate b player = Ok true ∧ c = other player).
Proof.
  apply (game_over_iff_mate_or_stalemate App_init). apply reachable_init.
Defined.

(** X16. The image name kept in [dragging_piece] is always one of the keys
    of [PIECES]. *)
Theorem dragged_image_is_a_key_of_PIECES (a : App) (name : string) (pos : Z * Z) :
  reachable a →
  ChessGame.dragging_piece (game a) = Some (name, pos) →
  name ∈ PIECES_keys.
Proof.
  intros Hr Hd. destruct (reachable_inv a Hr) as (_ & _ & Hdrag & _).
  by rewrite Hd in Hdrag.
Qed.

(** X17. A click moves a piece exactly when it should, and only legally.
    With [end_] the square under the click: either the board is as before,
    or a square was selected, its piece is of the side to move, [end_] is
    one of [get_legal_moves]' destinations for it, the new board is what
    [make_move] makes of the move to [end_], and the selection is dropped;
    and whenever the game is not over and [end_] is among the [legal_moves]
    of the selected square, that move is made. *)
Theorem click_moves_legally (a : App) (pos : Z * Z) :
  reachable a →
  let g := game a in
  let g' := (ChessGame.handle_click pos g).2 in
  let end_ := (pos.2 `div` SQUARE_SIZE, pos.1 `div` SQUARE_SIZE) in
  (ChessGame.board g' = ChessGame.board g
   ∨ ∃ start piece legal,
       ChessGame.selected_piece g = Some start
       ∧ get_piece (ChessGame.board g) start.1 start.2 = Some piece
       ∧ color piece = current_player (ChessGame.board g)
       ∧ get_legal_moves (ChessGame.board g) start.1 start.2 = Ok legal
       ∧ end_ ∈ legal
       ∧ make_move start end_ (ChessGame.board g) = (Ok tt, ChessGame.board g')
       ∧ ChessGame.selected_piece g' = None)
  ∧ (∀ start,
       ChessGame.game_over g = false →
       ChessGame.selected_piece g = Some start →
       end_ ∈ ChessGame.legal_moves g →
       make_move start end_ (ChessGame.board g) = (Ok tt, ChessGame.board g')
       ∧ ChessGame.selected_piece g' = None).
Proof.
  intros Hr g g' end_.
  destruct (handle_click_spec pos g (reachable_inv a Hr)) as (g'' & Hg & _ & H & Hmade).
  subst g'. rewrite Hg. cbn [snd]. split; [|exact Hmade].
  destruct H as [H|(start & piece & _ & Hs & Hp & Hc & Hl & Hin & Hmv & Hs')];
    [by left|right].
  by exists start, piece, (ChessGame.legal_moves g).
Qed.

Lemma click_moves_legally_witness :
  let g := game after_first_click in
  let g' := (ChessGame.handle_click (330, 350) g).2 in
  ChessGame.selected_piece g = Some (6, 4)
  ∧ ChessGame.board g' ≠ ChessGame.board g
  ∧ make_move (6, 4) (4, 4) (ChessGame.board g) = (Ok tt, ChessGame.board g')
  ∧ ChessGame.selected_piece g' = None.
Proof.
  intros g g'. split; [reflexivity|]. split; [vm_compute; discriminate|].
  apply (click_moves_legally after_first_click (330, 350)).
  - apply (reachable_event App_init MOUSEBUTTONDOWN (330, 500)); [apply reachable_init|].
    vm_compute. reflexivity.
  - reflexivity.
  - reflexivity.
  - apply list_elem_of_In. vm_compute. tauto.
Defined.

Lemma after_first_click_reachable : reachable after_first_click.
Proof.
  apply (reachable_event App_init MOUSEBUTTONDOWN (330, 500)); [apply reachable_init|].
  vm_compute. reflexivity.
Qed.

Lemma dragged_image_is_a_key_of_PIECES_witness : "wP"%string ∈ PIECES_keys.
Proof.
  apply (dragged_image_is_a_key_of_PIECES after_first_click "wP" (330, 500)).
  - apply after_first_click_reachable.
  - vm_compute. reflexivity.
Defined.

(** X18. With nothing selected and the game not over, a click anywhere
    inside the 80x80 pixel square drawn for (row, col), on a piece of the
    side to move, selects that square: the game records the square, the
    piece's image name with the click position, and the piece's legal
    moves, and leaves the rest as it was. *)
Theorem click_selects_piece_under_cursor
    (a : App) (row col dx dy : Z) (piece : Piece) :
  reachable a →
  ChessGame.game_over (game a) = false →
  ChessGame.selected_piece (game a) = None →
  get_piece (ChessGame.board (game a)) row col = Some piece →
  color piece = current_player (ChessGame.board (game a)) →
  0 ≤ dx < SQUARE_SIZE → 0 ≤ dy < SQUARE_SIZE →
  let pos := (col * SQUARE_SIZE + dx, row * SQUARE_SIZE + dy) in
  ∃ legal,
    get_legal_moves (ChessGame.board (game a)) row col = Ok legal
    ∧ ChessGame.handle_click pos (game a) =
        (Ok tt, ChessGame.mk (ChessGame.board (game a)) (Some (row, col))
                  (Some (Piece_str piece, pos)) legal false
                  (ChessGame.winner (game a))).
Proof.
  intros Hr Hgo Hs Hp Hc Hdx Hdy pos.
  destruct (reachable_inv a Hr) as (Hsound & _).
  destruct (select_spec (game a) row col piece pos Hsound) as (legal & Hl & Hsel).
  exists legal. split; [done|].
  unfold ChessGame.handle_click.
  rewrite (bind_ok _ _ _ (ChessGame.game_over (game a)) (game a)) by reflexivity.
  rewrite Hgo. subst pos. cbn [fst snd].
  replace ((col * SQUARE_SIZE + dx) `div` SQUARE_SIZE) with col
    by (apply (Z.div_unique_pos _ _ col dx); lia).
  replace ((row * SQUARE_SIZE + dy) `div` SQUARE_SIZE) with row
    by (apply (Z.div_unique_pos _ _ row dy); lia).
  rewrite (bind_ok _ _ _ (get_piece (ChessGame.board (game a)) row col) (game a))
    by reflexivity.
  rewrite (bind_ok _ _ _ (ChessGame.selected_piece (game a)) (game a)) by reflexivity.
  rewrite Hs.
  rewrite (bind_ok _ _ _ (current_player (ChessGame.board (game a))) (game a))
    by reflexivity.
  rewrite Hp. unfold ChessGame.owned. rewrite bool_decide_eq_true_2 by done.
  by rewrite Hsel, Hgo.
Qed.

Lemma click_selects_piece_under_cursor_witness :
  let pos := (4 * SQUARE_SIZE + 10, 6 * SQUARE_SIZE + 20) in
  ∃ legal,
    get_legal_moves (ChessGame.board (game App_init)) 6 4 = Ok legal
    ∧ ChessGame.handle_click pos (game App_init) =
        (Ok tt, ChessGame.mk (ChessGame.board (game App_init)) (Some (6, 4))
                  (Some (Piece_str (mkPiece WHITE PAWN), pos)) legal false
                  (ChessGame.winner (game App_init))).
Proof.
  apply (click_selects_piece_under_cursor App_init 6 4 10 20 (mkPiece WHITE PAWN)).
  - apply reachable_init.
  - reflexivity.
  - reflexivity.
  - reflexivity.
  - reflexivity.
  - change SQUARE_SIZE with 80. lia.
  - change SQUARE_SIZE with 80. lia.
Defined.

(** X19. Once [game_over] is set, no event but the r key changes the board,
    the selection, the legal moves, [game_over] or the winner. *)
Theorem finished_game_changes_only_on_reset
    (a : App) (event : Event) (mouse_pos : Z * Z) :
  ChessGame.game_over (game a) = true →
  event ≠ KEYDOWN K_r →
  let g := game a in
  let g' := game (handle_event event mouse_pos a).2 in
  (handle_event event mouse_pos a).1 = Ok tt
  ∧ ChessGame.board g' = ChessGame.board g
  ∧ ChessGame.selected_piece g' = ChessGame.selected_piece g
  ∧ ChessGame.legal_moves g' = ChessGame.legal_moves g
  ∧ ChessGame.game_over g' = true
  ∧ ChessGame.winner g' = ChessGame.winner g.
Proof.
  intros Hgo Hev g g'. subst g g'.
  assert (Hclick : ChessGame.handle_click mouse_pos (game a) = (Ok tt, game a)).
  { unfold ChessGame.handle_click.
    rewrite (bind_ok _ _ _ (ChessGame.game_over (game a)) (game a)) by reflexivity.
    by rewrite Hgo. }
  destruct event; cbn [handle_event].
  - done.
  - unfold on_game. by rewrite Hclick.
  - unfold on_game, ChessGame.handle_drag, bind, gets, modify, ret.
    by destruct (ChessGame.dragging_piece (game a)) as [[name old]|].
  - unfold on_game. by rewrite Hclick.
  - destruct (key =? K_r) eqn:Hk; [|done].
    apply Z.eqb_eq in Hk. by subst key.
  - done.
Qed.

Lemma finished_game_changes_only_on_reset_witness :
  let g := game finished_app in
  let g' := game (handle_event MOUSEBUTTONDOWN (330, 500) finished_app).2 in
  (handle_event MOUSEBUTTONDOWN (330, 500) finished_app).1 = Ok tt
  ∧ ChessGame.board g' = ChessGame.board g
  ∧ ChessGame.selected_piece g' = ChessGame.selected_piece g
  ∧ ChessGame.legal_moves g' = ChessGame.legal_moves g
  ∧ ChessGame.game_over g' = true
  ∧ ChessGame.winner g' = ChessGame.winner g.
Proof.
  apply (finished_game_changes_only_on_reset finished_app MOUSEBUTTONDOWN (330, 500)).
  - reflexivity.
  - discriminate.
Defined.

(** ** The generators, by the geometry of the pieces *)

(** X20. For a rook, knight, bishop, queen or king the generated
    destinations are exactly the squares of the board the piece bears on (by
    its jump, its step, or along a line with nothing in between) that are
    empty or hold a piece of the other color. *)
Theorem moves_of_pieces_by_geometry
    (b : Board) (row col : Z) (piece : Piece) (sq : Square) :
  get_piece b row col = Some piece →
  type piece ≠ PAWN →
  (sq ∈ Piece_get_legal_moves piece b row col ↔
     is_valid_position sq.1 sq.2 = true
     ∧ bears_on b piece row col sq.1 sq.2
     ∧ (get_piece b sq.1 sq.2 = None
        ∨ ∃ t, get_piece b sq.1 sq.2 = Some t ∧ color t ≠ color piece)).
Proof.
  intros Hp Hty. destruct sq as [tr tc]. cbn [fst snd].
  rewrite <- (is_enemy_color piece (get_piece b tr tc)).
  rewrite list_elem_of_In. by apply non_pawn_moves_geometry.
Qed.

Lemma moves_of_pieces_by_geometry_witness :
  get_piece fools_mate 7 4 = Some (mkPiece WHITE KING)
  ∧ ((7, 4) ∈ Piece_get_legal_moves (mkPiece BLACK QUEEN) fools_mate 4 7 ↔
     is_valid_position (7, 4).1 (7, 4).2 = true
     ∧ bears_on fools_mate (mkPiece BLACK QUEEN) 4 7 (7, 4).1 (7, 4).2
     ∧ (get_piece fools_mate (7, 4).1 (7, 4).2 = None
        ∨ ∃ t, get_piece fools_mate (7, 4).1 (7, 4).2 = Some t
               ∧ color t ≠ color (mkPiece BLACK QUEEN))).
Proof.
  split; [reflexivity|].
  apply (moves_of_pieces_by_geometry fools_mate 4 7 (mkPiece BLACK QUEEN) (7, 4)).
  - reflexivity.
  - discriminate.
Defined.

(** X21. A pawn is given exactly: the square straight ahead when it is
    empty (on the board or not); the square two rows ahead when the pawn
    stands on its start row (6 for White, 1 for Black) and both squares are
    empty; and each square of the board one row ahead and one column aside
    that holds a piece of the other color or is the en-passant target. *)
Theorem pawn_moves_characterised
    (b : Board) (row col : Z) (piece : Piece) (sq : Square) :
  get_piece b row col = Some piece →
  type piece = PAWN →
  let direction := match color piece with WHITE => -1 | BLACK => 1 end in
  let start_row := match color piece with WHITE => 6 | BLACK => 1 end in
  (sq ∈ Piece_get_legal_moves piece b row col ↔
     (sq = (row + direction, col) ∧ get_piece b (row + direction) col = None)
     ∨ (sq = (row + 2 * direction, col) ∧ row = start_row
        ∧ get_piece b (row + direction) col = None
        ∧ get_piece b (row + 2 * direction) col = None)
     ∨ (is_valid_position sq.1 sq.2 = true
        ∧ sq.1 = row + direction ∧ Z.abs (sq.2 - col) = 1
        ∧ ((∃ t, get_piece b sq.1 sq.2 = Some t ∧ color t ≠ color piece)
           ∨ en_passant_target b = Some sq))).
Proof.
  intros Hp Hty direction start_row.
  rewrite <- (is_enemy_color piece (get_piece b sq.1 sq.2)).
  unfold Piece_get_legal_moves. rewrite Hty, list_elem_of_In.
  rewrite (in_pawn_moves _ _ _ _ _ Hp). fold direction. fold start_row.
  split.
  - intros [H|[H|(dcol & Hd & -> & Hv & He)]]; [by left|by right; left|].
    right; right. cbn [fst snd]. split; [done|]. split; [done|]. split; [lia|done].
  - intros [H|[H|(Hv & Hr & Hc & He)]]; [by left|by right; left|].
    right; right. destruct sq as [tr tc]. cbn [fst snd] in *. subst tr.
    exists (tc - col). split; [lia|].
    replace (col + (tc - col)) with tc by lia. done.
Qed.

Lemma pawn_moves_characterised_witness :
  let direction := match color (mkPiece WHITE PAWN) with WHITE => -1 | BLACK => 1 end in
  let start_row := match color (mkPiece WHITE PAWN) with WHITE => 6 | BLACK => 1 end in
  get_piece after_e4_d5 3 3 = Some (mkPiece BLACK PAWN)
  ∧ ((3, 3) ∈ Piece_get_legal_moves (mkPiece WHITE PAWN) after_e4_d5 4 4 ↔
     ((3, 3) = (4 + direction, 4) ∧ get_piece after_e4_d5 (4 + direction) 4 = None)
     ∨ ((3, 3) = (4 + 2 * direction, 4) ∧ 4 = start_row
        ∧ get_piece after_e4_d5 (4 + direction) 4 = None
        ∧ get_piece after_e4_d5 (4 + 2 * direction) 4 = None)
     ∨ (is_valid_position (3, 3).1 (3, 3).2 = true
        ∧ (3, 3).1 = 4 + direction ∧ Z.abs ((3, 3).2 - 4) = 1
        ∧ ((∃ t, get_piece after_e4_d5 (3, 3).1 (3, 3).2 = Some t
                 ∧ color t ≠ color (mkPiece WHITE PAWN))
           ∨ en_passant_target after_e4_d5 = Some (3, 3)))).
Proof.
  intros direction start_row. split; [reflexivity|].
  apply (pawn_moves_characterised after_e4_d5 4 4 (mkPiece WHITE PAWN) (3, 3)).
  - reflexivity.
  - reflexivity.
Defined.

(** ** [make_move] through the heap *)

(** X22. On a board object whose rows are lists of its own, pairwise
    distinct and allocated after the heap [h0], [make_move] through the heap
    returns what [make_move] returns on the board by value (the same
    exception when it raises), leaves the object equal to that board, and
    changes nothing that [h0] holds. *)
Theorem make_move_on_heap_refines
    (h0 h : Heap) (temp : loc) (tb : Board) (start end_ : Square) :
  scratch h0 temp h tb →
  (make_move (ops := Heap_ops temp) start end_ h).1 = (make_move start end_ tb).1
  ∧ snapshot (make_move (ops := Heap_ops temp) start end_ h).2 temp
    = (make_move start end_ tb).2
  ∧ extends h0 (make_move (ops := Heap_ops temp) start end_ h).2.
Proof.
  intros Hsc.
  destruct (sim_make_move _ _ _ (heap_ops_sim h0 temp) start end_ h tb Hsc)
    as [Hres (Hext & _ & _ & _ & Hsnap)].
  done.
Qed.

Lemma opening_heap_scratch : scratch (mkHeap [] []) 0%nat opening_heap reset.
Proof. exact (proj2 (new_Board_spec (mkHeap [] []))). Qed.

Lemma make_move_on_heap_refines_witness :
  (make_move (ops := Heap_ops 0%nat) (6, 4) (4, 4) opening_heap).1
    = (make_move (6, 4) (4, 4) reset).1
  ∧ snapshot (make_move (ops := Heap_ops 0%nat) (6, 4) (4, 4) opening_heap).2 0%nat
    = (make_move (6, 4) (4, 4) reset).2
  ∧ extends (mkHeap [] []) (make_move (ops := Heap_ops 0%nat) (6, 4) (4, 4) opening_heap).2.
Proof.
  apply (make_move_on_heap_refines (mkHeap [] []) opening_heap 0%nat reset (6, 4) (4, 4)).
  apply opening_heap_scratch.
Defined.
